(** * minipiano: the DFT and FFT kernels of [fft.c]

    A shallow embedding of [frames_as_frequencies], [dft] and [fft] from
    [src/fft.c], in idealised arithmetic: a C [float] / [double] is a real
    number of [R], a [complex float] a pair of reals, [PI] is the real
    number pi, and no operation rounds.  Everything else follows the C
    text: [unsigned int] arithmetic wraps at [2^32], buffers are lists that
    are read and written by index (an access out of range is a fault, not a
    silent no-op), the [for] loops run their bodies in order, and the
    recursion of [fft] is driven by fuel that counts the nested calls. *)

From Stdlib Require Import Reals Lra Lia NArith ZArith ZifyNat ZifyN.
From stdpp Require Import base list.

Open Scope R_scope.

(** [lia] reasons about [window / 2]. *)
Ltac Zify.zify_post_hook ::= Z.to_euclidean_division_equations.

(** ** [unsigned int] *)

Module UInt.

Definition modulus : N := (2 ^ 32)%N.

Definition add (a b : N) : N := ((a + b) mod modulus)%N.
Definition mul (a b : N) : N := ((a * b) mod modulus)%N.
Definition div (a b : N) : N := (a / b)%N.

(** [(float) a] *)
Definition to_float (a : N) : R := IZR (Z.of_N a).

End UInt.

(** ** [complex float], with the mixed real/complex operators of C99 *)

Module Cplx.

Record C : Type := mk { re : R; im : R }.

(** The macro [I] of [<complex.h>]. *)
Definition I : C := mk 0 1.

Definition of_real (x : R) : C := mk x 0.

Definition add (z w : C) : C := mk (re z + re w) (im z + im w).
Definition sub (z w : C) : C := mk (re z - re w) (im z - im w).
Definition mul (z w : C) : C :=
  mk (re z * re w - im z * im w) (re z * im w + im z * re w).

(** real [op] complex and complex [op] real *)
Definition rmul (x : R) (z : C) : C := mk (x * re z) (x * im z).
Definition mulr (z : C) (x : R) : C := mk (re z * x) (im z * x).
Definition divr (z : C) (x : R) : C := mk (re z / x) (im z / x).
Definition radd (x : R) (z : C) : C := mk (x + re z) (im z).
Definition rsub (x : R) (z : C) : C := mk (x - re z) (- im z).

(** [cexp] / [cexpf] *)
Definition cexp (z : C) : C :=
  mk (exp (re z) * cos (im z)) (exp (re z) * sin (im z)).

(** Conversion of a complex value to [float]: the imaginary part is
    discarded (C99 6.3.1.7). *)
Definition to_float (z : C) : R := re z.

End Cplx.

(** ** Outcomes of a run *)

Inductive outcome (A : Type) : Type :=
| Ok (a : A)
| OutOfBounds
| OutOfFuel.
Arguments Ok {A} a.
Arguments OutOfBounds {A}.
Arguments OutOfFuel {A}.

#[global] Instance outcome_ret : MRet outcome := fun A a => Ok a.
#[global] Instance outcome_bind : MBind outcome := fun A B f m =>
  match m with
  | Ok a => f a
  | OutOfBounds => OutOfBounds
  | OutOfFuel => OutOfFuel
  end.

(** A run completes when it does not stop for lack of fuel: it returns a
    result or faults on an access out of range. *)
Definition completes {A : Type} (m : outcome A) : Prop := m ≠ OutOfFuel.

(** ** Buffers of [float] *)

(** [buf[i]] as an rvalue. *)
Definition load (buf : list R) (i : N) : outcome R :=
  match buf !! N.to_nat i with
  | Some x => Ok x
  | None => OutOfBounds
  end.

(** [buf[i] = x]. *)
Definition store (buf : list R) (i : N) (x : R) : outcome (list R) :=
  if decide (N.to_nat i < length buf)%nat
  then Ok (<[N.to_nat i := x]> buf)
  else OutOfBounds.

(** [float a[n];] a variable-length array.  Its initial contents are
    indeterminate in C; [fft] stores into every slot before loading it. *)
Definition alloca (n : N) : list R := replicate (N.to_nat n) 0.

(** ** [for (unsigned int i = 0; i < bound; ++i) body] *)

Fixpoint for_from {S : Type} (count : nat) (i : N)
    (body : N → S → outcome S) (s : S) : outcome S :=
  match count with
  | O => Ok s
  | Datatypes.S count' =>
      s' ← body i s; for_from count' (UInt.add i 1) body s'
  end.

Definition for_upto {S : Type} (bound : N)
    (body : N → S → outcome S) (s : S) : outcome S :=
  for_from (N.to_nat bound) 0%N body s.

(** ** [frames_as_frequencies] *)

Definition copy_body (in_frames : list R) (i : N) (out : list R)
    : outcome (list R) :=
  x ← load in_frames i; store out i x.

Definition frames_as_frequencies (in_frames out_frequencies : list R)
    (n_frames : N) : outcome (list R) :=
  for_upto n_frames (copy_body in_frames) out_frequencies.

(** ** [dft] *)

(** [-2 * I * PI * freq * t] *)
Definition dft_angle (freq : N) (t : R) : Cplx.C :=
  Cplx.mulr
    (Cplx.mulr (Cplx.mulr (Cplx.rmul (-2) Cplx.I) PI) (UInt.to_float freq))
    t.

(** The body of the inner loop:
    [out_frequencies[freq] += in_frames[frame] * cexpf(...)]. *)
Definition dft_frame_body (in_frames : list R) (n_frames freq frame : N)
    (out : list R) : outcome (list R) :=
  let t := UInt.to_float frame / UInt.to_float n_frames in
  acc ← load out freq;
  x ← load in_frames frame;
  store out freq
    (Cplx.to_float
       (Cplx.radd acc (Cplx.rmul x (Cplx.cexp (dft_angle freq t))))).

Definition dft_freq_body (in_frames : list R) (n_frames freq : N)
    (out : list R) : outcome (list R) :=
  out0 ← store out freq 0;
  for_upto n_frames (dft_frame_body in_frames n_frames freq) out0.

Definition dft (in_frames out_frequencies : list R) (n_frames : N)
    : outcome (list R) :=
  for_upto n_frames (dft_freq_body in_frames n_frames) out_frequencies.

(** ** [fft] *)

(** The body of the split loop. *)
Definition split_body (in_frames : list R) (i : N)
    (eo : list R * list R) : outcome (list R * list R) :=
  x ← load in_frames (UInt.mul i 2);
  even ← store eo.1 i x;
  y ← load in_frames (UInt.add (UInt.mul i 2) 1);
  odd ← store eo.2 i y;
  Ok (even, odd).

(** [-2.0 * I * PI * (float)i / (float)window] *)
Definition fft_angle (window i : N) : Cplx.C :=
  Cplx.divr
    (Cplx.mulr (Cplx.mulr (Cplx.rmul (-2) Cplx.I) PI) (UInt.to_float i))
    (UInt.to_float window).

(** The body of the combine loop. *)
Definition combine_body (even odd : list R) (window i : N)
    (out : list R) : outcome (list R) :=
  o ← load odd i;
  let twiddle := Cplx.mulr (Cplx.cexp (fft_angle window i)) o in
  e ← load even i;
  out1 ← store out i (Cplx.to_float (Cplx.radd e twiddle));
  e' ← load even i;
  store out1 (UInt.add i (UInt.div window 2))
    (Cplx.to_float (Cplx.rsub e' twiddle)).

(** One unit of fuel is one activation of [fft]; a run that needs a
    deeper nesting than [fuel] ends in [OutOfFuel]. *)
Fixpoint fft_fuel (fuel : nat) (in_frames out_frequencies : list R)
    (window : N) : outcome (list R) :=
  match fuel with
  | O => OutOfFuel
  | Datatypes.S fuel' =>
      if (window <=? 1)%N then Ok out_frequencies
      else
        let half := UInt.div window 2 in
        eo ← for_upto half (split_body in_frames) (alloca half, alloca half);
        out1 ← fft_fuel fuel' eo.1 out_frequencies half;
        out2 ← fft_fuel fuel' eo.2 out1 half;
        for_upto half (combine_body eo.1 eo.2 window) out2
  end.

(** The nesting depth that reaches the base case from [window]. *)
Definition fft_depth (window : N) : nat :=
  Datatypes.S (N.to_nat (N.log2 window)).

Definition fft (in_frames out_frequencies : list R) (window : N)
    : outcome (list R) :=
  fft_fuel (fft_depth window) in_frames out_frequencies window.

(** ** Reference quantities

    What the transforms are meant to compute, written from the
    mathematical definition rather than from the C text. *)

(** The sample [buf[i]] of a buffer that has it. *)
Definition sample (buf : list R) (i : nat) : R := default 0 (buf !! i).

(** [e^{-2 pi i x}] *)
Definition unit_exp (x : R) : Cplx.C := Cplx.cexp (Cplx.mk 0 (- (2 * PI * x))).

(** [f 0 + f 1 + ... + f (n-1)] over the complex numbers and over the
    reals. *)
Fixpoint Csum (n : nat) (f : nat → Cplx.C) : Cplx.C :=
  match n with
  | O => Cplx.of_real 0
  | S n' => Cplx.add (Csum n' f) (f n')
  end.

Fixpoint Rsum (n : nat) (f : nat → R) : R :=
  match n with
  | O => 0
  | S n' => Rsum n' f + f n'
  end.

(** The complex DFT bin
    [sum_{t < n} x[t] * e^{-2 pi i * freq * t / n}]. *)
Definition dft_bin (x : list R) (n freq : nat) : Cplx.C :=
  Csum n (fun t =>
    Cplx.mul (Cplx.of_real (sample x t))
             (unit_exp (INR freq * INR t / INR n))).

(** The even-indexed and odd-indexed halves of a window. *)
Definition evens (x : list R) (window : nat) : list R :=
  (fun i => sample x (2 * i)%nat) <$> seq 0 (window / 2).
Definition odds (x : list R) (window : nat) : list R :=
  (fun i => sample x (2 * i + 1)%nat) <$> seq 0 (window / 2).

(** One butterfly over the raw samples [x[2i]] and [x[2i+1]]. *)
Definition raw_butterfly_lo (x : list R) (window i : nat) : R :=
  Cplx.re (Cplx.add (Cplx.of_real (sample x (2 * i)))
             (Cplx.mul (unit_exp (INR i / INR window))
                       (Cplx.of_real (sample x (2 * i + 1))))).
Definition raw_butterfly_hi (x : list R) (window i : nat) : R :=
  Cplx.re (Cplx.sub (Cplx.of_real (sample x (2 * i)))
             (Cplx.mul (unit_exp (INR i / INR window))
                       (Cplx.of_real (sample x (2 * i + 1))))).

(** The radix-2 butterfly over the transformed halves, as section 4.2 of
    the specification words it. *)
Definition spec_butterfly_lo (x : list R) (window i : nat) : R :=
  Cplx.re (Cplx.add (dft_bin (evens x window) (window / 2) i)
             (Cplx.mul (unit_exp (INR i / INR window))
                       (dft_bin (odds x window) (window / 2) i))).
Definition spec_butterfly_hi (x : list R) (window i : nat) : R :=
  Cplx.re (Cplx.sub (dft_bin (evens x window) (window / 2) i)
             (Cplx.mul (unit_exp (INR i / INR window))
                       (dft_bin (odds x window) (window / 2) i))).

(** [fft] with its two recursive calls taken out: the split loop followed
    by the combine loop. *)
Definition butterfly_stage (in_frames out_frequencies : list R)
    (window : N) : outcome (list R) :=
  let half := UInt.div window 2 in
  eo ← for_upto half (split_body in_frames) (alloca half, alloca half);
  for_upto half (combine_body eo.1 eo.2 window) out_frequencies.

(** What one activation of [fft] does to the buffer it is handed, its
    recursive calls left out: nothing in the base case, a butterfly stage
    otherwise. *)
Definition fft_effect (x out : list R) (window : N) : outcome (list R) :=
  if (window <=? 1)%N then Ok out else butterfly_stage x out window.

(** [a*x + b*y], sample by sample. *)
Definition lincomb (a b : R) (x y : list R) : list R :=
  zip_with (fun u v => a * u + b * v) x y.

(** The value [dft] leaves in bin [freq]: the cosine sum that the
    narrowing stores of the inner loop accumulate. *)
Definition dft_re (x : list R) (n freq : nat) : R :=
  Rsum n (fun t => sample x t * cos (2 * PI * (INR freq * (INR t / INR n)))).

(** ** [minipiano.c]: the synthesiser

    The globals [instrument], [c_frequency], [phase], [frequency] and
    [amplitude] of [minipiano.c], with the [static bool increasing] of
    [triangle], as one record; a [double] is a real number like a [float],
    [MA_PI] is pi, and text written to [stdout] is not modelled. *)

Inductive Instrument : Type := SINE | SQUARE | TRIANGLE | SAW.

Record synth : Type := mk_synth {
  instrument : Instrument;
  c_frequency : R;
  phase : R;
  frequency : R;
  amplitude : R;
  increasing : bool
}.

Definition set_instrument (v : Instrument) (st : synth) : synth :=
  mk_synth v (c_frequency st) (phase st) (frequency st) (amplitude st)
    (increasing st).
Definition set_c_frequency (v : R) (st : synth) : synth :=
  mk_synth (instrument st) v (phase st) (frequency st) (amplitude st)
    (increasing st).
Definition set_phase (v : R) (st : synth) : synth :=
  mk_synth (instrument st) (c_frequency st) v (frequency st) (amplitude st)
    (increasing st).
Definition set_frequency (v : R) (st : synth) : synth :=
  mk_synth (instrument st) (c_frequency st) (phase st) v (amplitude st)
    (increasing st).
Definition set_amplitude (v : R) (st : synth) : synth :=
  mk_synth (instrument st) (c_frequency st) (phase st) (frequency st) v
    (increasing st).
Definition set_increasing (v : bool) (st : synth) : synth :=
  mk_synth (instrument st) (c_frequency st) (phase st) (frequency st)
    (amplitude st) v.

(** The state when [main] starts the device: the initialisers of the
    globals, and [frequency = c_frequency]. *)
Definition initial_synth : synth := mk_synth SINE 440 0 440 (2 / 10) false.

(** Each oscillator returns the sample it writes through [output] and the
    state it leaves. *)

Definition sine_simple (sample_rate : R) (st : synth) : R * synth :=
  let output := amplitude st * sin (phase st * 2 * PI) in
  let st1 := set_phase (phase st + frequency st / sample_rate) st in
  let st2 :=
    if Rge_dec (phase st1) 1 then set_phase (phase st1 - 1) st1 else st1 in
  (output, st2).

Definition tooth (sample_rate : R) (st : synth) : R * synth :=
  let output :=
    if Rgt_dec (phase st * 2 * PI) 0
    then if Rlt_dec (phase st * 2 * PI) PI
         then amplitude st
         else - amplitude st
    else - amplitude st in
  let st1 := set_phase (phase st + (2 * frequency st) / sample_rate) st in
  let st2 :=
    if Rge_dec (phase st1) 1 then set_phase (phase st1 - 2) st1 else st1 in
  (output, st2).

Definition triangle (sample_rate : R) (st : synth) : R * synth :=
  let output := amplitude st * phase st in
  let df := (2 * frequency st) / sample_rate in
  let st1 :=
    if negb (increasing st)
    then if Rlt_dec (phase st - df) (-1) then set_increasing true st else st
    else st in
  let st2 :=
    if increasing st1
    then if Rgt_dec (phase st1 + df) 1 then set_increasing false st1 else st1
    else st1 in
  let st3 :=
    if increasing st2
    then set_phase (phase st2 + df) st2
    else set_phase (phase st2 - df) st2 in
  (output, st3).

Definition saw (sample_rate : R) (st : synth) : R * synth :=
  let output := amplitude st * phase st in
  let st1 := set_phase (phase st + (2 * frequency st) / sample_rate) st in
  let st2 := if Rge_dec (phase st1) 1 then set_phase (-2) st1 else st1 in
  (output, st2).

(** [#define FRAME_COUNT_MAX (1<<7)] and [MIN]. *)
Definition FRAME_COUNT_MAX : N := N.shiftl 1 7.
Definition MIN (x y : N) : N := if (x <? y)%N then x else y.

(** The [switch] of [data_callback] on the instrument. *)
Definition oscillate (sample_rate : R) (st : synth) : R * synth :=
  match instrument st with
  | SINE => sine_simple sample_rate st
  | SQUARE => tooth sample_rate st
  | TRIANGLE => triangle sample_rate st
  | SAW => saw sample_rate st
  end.

(** The body of the loop of [data_callback]: the selected oscillator
    writes [output[i]]. *)
Definition callback_body (sample_rate : R) (i : N) (s : synth * list R)
    : outcome (synth * list R) :=
  let r := oscillate sample_rate s.1 in
  output ← store s.2 i r.1;
  Ok (r.2, output).

(** [data_callback]: [sampleRate] is [pDevice->sampleRate], [output] the
    buffer behind [pOutput], [frames] the global array of [fft.c]. *)
Definition data_callback (sampleRate frameCount : N)
    (output frames : list R) (st : synth)
    : outcome (synth * list R * list R) :=
  let sample_rate := UInt.to_float sampleRate in
  so ← for_upto frameCount (callback_body sample_rate) (st, output);
  frames' ← frames_as_frequencies so.2 frames (MIN frameCount FRAME_COUNT_MAX);
  Ok (so.1, so.2, frames').

(** The [switch] of [main] on the key of an [SDL_EVENT_KEY_DOWN] event;
    [None] is the [goto cleanup] of ['q'].  The cases are the character
    codes of the keys. *)
Definition key_down (key : N) (st : synth) : option synth :=
  match key with
  | 113 (* q *) => None
  | 122 (* z *) =>
      let st1 := set_c_frequency (c_frequency st * Rpower 2 (1 / 12)) st in
      Some (set_frequency (c_frequency st1) st1)
  | 120 (* x *) =>
      let st1 := set_c_frequency (c_frequency st / Rpower 2 (1 / 12)) st in
      Some (set_frequency (c_frequency st1) st1)
  | 97 (* a *) => Some (set_frequency (c_frequency st) st)
  | 119 (* w *) =>
      Some (set_frequency (c_frequency st * Rpower 2 (1 / 12)) st)
  | 115 (* s *) =>
      Some (set_frequency (c_frequency st * Rpower 2 (2 / 12)) st)
  | 101 (* e *) =>
      Some (set_frequency (c_frequency st * Rpower 2 (3 / 12)) st)
  | 100 (* d *) =>
      Some (set_frequency (c_frequency st * Rpower 2 (4 / 12)) st)
  | 102 (* f *) =>
      Some (set_frequency (c_frequency st * Rpower 2 (5 / 12)) st)
  | 116 (* t *) =>
      Some (set_frequency (c_frequency st * Rpower 2 (6 / 12)) st)
  | 103 (* g *) =>
      Some (set_frequency (c_frequency st * Rpower 2 (7 / 12)) st)
  | 121 (* y *) =>
      Some (set_frequency (c_frequency st * Rpower 2 (8 / 12)) st)
  | 104 (* h *) =>
      Some (set_frequency (c_frequency st * Rpower 2 (9 / 12)) st)
  | 117 (* u *) =>
      Some (set_frequency (c_frequency st * Rpower 2 (10 / 12)) st)
  | 106 (* j *) =>
      Some (set_frequency (c_frequency st * Rpower 2 (11 / 12)) st)
  | 107 (* k *) =>
      Some (set_frequency (c_frequency st * Rpower 2 (12 / 12)) st)
  | 49 (* 1 *) => Some (set_instrument SINE st)
  | 50 (* 2 *) => Some (set_instrument SQUARE st)
  | 51 (* 3 *) => Some (set_instrument TRIANGLE st)
  | 52 (* 4 *) => Some (set_instrument SAW st)
  | 111 (* o *) => Some (set_amplitude (amplitude st + 1 / 10) st)
  | 112 (* p *) =>
      let st1 := set_amplitude (amplitude st - 1 / 10) st in
      Some (if Rlt_dec (amplitude st1) 0 then set_amplitude 0 st1 else st1)
  | _ => Some st
  end%N.

(** The key events of a run of the loop of [main], in order; the loop is
    left at the first ['q']. *)
Fixpoint key_downs (keys : list N) (st : synth) : option synth :=
  match keys with
  | [] => Some st
  | key :: keys' =>
      match key_down key st with
      | Some st' => key_downs keys' st'
      | None => None
      end
  end.

(** ** [minipiano.c]: the bars of the spectrum *)

Definition WINDOW_WIDTH : N := 800.
Definition WINDOW_HEIGHT : N := 500.
Definition FREQUENCY_SCALING : R := 52 / 100.

Record SDL_FRect : Type := mk_rect {
  rect_x : R; rect_y : R; rect_w : R; rect_h : R
}.

(** The compound literal of the render loop, for bin [i] holding [f]. *)
Definition bar_rect (i : N) (f : R) : SDL_FRect :=
  {| rect_x :=
       UInt.to_float
         (UInt.mul (UInt.div (UInt.mul i WINDOW_WIDTH) FRAME_COUNT_MAX) 2);
     rect_y := UInt.to_float (UInt.div WINDOW_HEIGHT 2);
     rect_w := UInt.to_float (UInt.div WINDOW_WIDTH FRAME_COUNT_MAX);
     rect_h := UInt.to_float WINDOW_HEIGHT * f / 2 * FREQUENCY_SCALING |}.

(** [rect.h *= -1] *)
Definition mirror (r : SDL_FRect) : SDL_FRect :=
  mk_rect (rect_x r) (rect_y r) (rect_w r) (rect_h r * -1).

(** The body of the render loop; the state is the list of the rectangles
    handed to [SDL_RenderFillRect] so far. *)
Definition render_body (frequencies : list R) (i : N)
    (drawn : list SDL_FRect) : outcome (list SDL_FRect) :=
  f ← load frequencies i;
  if Rle_dec f 0 then Ok drawn
  else
    f' ← load frequencies i;
    let rect := bar_rect i f' in
    Ok (drawn ++ [rect; mirror rect]).

Definition render_spectrum (frequencies : list R)
    : outcome (list SDL_FRect) :=
  for_upto (UInt.div FRAME_COUNT_MAX 2) (render_body frequencies) [].

(** The transform and the bars of one rendered frame of [main]. *)
Definition render_frame (frames frequencies : list R)
    : outcome (list R * list SDL_FRect) :=
  frequencies' ← fft frames frequencies FRAME_COUNT_MAX;
  drawn ← render_spectrum frequencies';
  Ok (frequencies', drawn).

(** ** Reference predicates for the synthesiser *)

(** The knobs a key changes, which no oscillator touches. *)
Definition same_controls (st st' : synth) : Prop :=
  instrument st' = instrument st
  ∧ c_frequency st' = c_frequency st
  ∧ frequency st' = frequency st
  ∧ amplitude st' = amplitude st.

(** The range in which the selected oscillator keeps [phase]. *)
Definition phase_ok (st : synth) : Prop :=
  match instrument st with
  | SINE => 0 <= phase st < 1
  | SQUARE => -1 <= phase st < 1
  | TRIANGLE => -1 <= phase st <= 1
  | SAW => -2 <= phase st < 1
  end.

(** The phase increments for which it does so. *)
Definition step_ok (sample_rate : R) (st : synth) : Prop :=
  match instrument st with
  | SINE => 0 <= frequency st / sample_rate <= 1
  | SQUARE => 0 <= 2 * frequency st / sample_rate <= 2
  | TRIANGLE => 0 <= 2 * frequency st / sample_rate <= 1
  | SAW => 0 <= 2 * frequency st / sample_rate
  end.

(** The largest magnitude of a sample of the selected oscillator. *)
Definition peak (st : synth) : R :=
  match instrument st with
  | SAW => 2 * amplitude st
  | _ => amplitude st
  end.

(** What the key presses keep true of the state. *)
Definition tuned (st : synth) : Prop :=
  0 < c_frequency st
  ∧ c_frequency st <= frequency st <= 2 * c_frequency st
  ∧ 0 <= amplitude st.

(** The thirteen piano keys [a w s e d f t g y h u j k], from C to C. *)
Definition piano_keys : list N :=
  [97; 119; 115; 101; 100; 102; 116; 103; 121; 104; 117; 106; 107]%N.

(** The rectangles of the bins below [k], bin by bin: none for a bin that
    is not positive, the bar and its mirror image for one that is. *)
Definition bars_of (freqs : list R) (k : nat) : list SDL_FRect :=
  seq 0 k ≫= fun i =>
    if Rle_dec (sample freqs i) 0 then []
    else [bar_rect (N.of_nat i) (sample freqs i);
          mirror (bar_rect (N.of_nat i) (sample freqs i))].

(** ** Arithmetic of [unsigned int] that does not wrap *)

Lemma uint_add_small (a b : N) :
  (a + b < UInt.modulus)%N → UInt.add a b = (a + b)%N.
Proof. intros H. unfold UInt.add. now apply N.mod_small. Qed.

Lemma uint_mul_small (a b : N) :
  (a * b < UInt.modulus)%N → UInt.mul a b = (a * b)%N.
Proof. intros H. unfold UInt.mul. now apply N.mod_small. Qed.

Lemma uint_succ_of_nat (k : nat) :
  (N.of_nat (S k) < UInt.modulus)%N →
  UInt.add (N.of_nat k) 1 = N.of_nat (S k).
Proof. intros H. rewrite uint_add_small; lia. Qed.

Lemma to_float_of_nat (k : nat) : UInt.to_float (N.of_nat k) = INR k.
Proof. unfold UInt.to_float. now rewrite nat_N_Z, INR_IZR_INZ. Qed.

Lemma half_to_nat (window : N) :
  N.to_nat (UInt.div window 2) = (N.to_nat window / 2)%nat.
Proof. unfold UInt.div. now rewrite N2Nat.inj_div. Qed.

(** ** Loads and stores that are in range *)

Lemma load_Some (buf : list R) (i : nat) (x : R) :
  buf !! i = Some x → load buf (N.of_nat i) = Ok x.
Proof. intros H. unfold load. now rewrite Nat2N.id, H. Qed.

Lemma load_sample (buf : list R) (i : nat) :
  (i < length buf)%nat → load buf (N.of_nat i) = Ok (sample buf i).
Proof.
  intros H. apply lookup_lt_is_Some in H as [x Hx].
  unfold sample. rewrite Hx. now apply load_Some.
Qed.

Lemma store_in_range (buf : list R) (i : nat) (x : R) :
  (i < length buf)%nat → store buf (N.of_nat i) x = Ok (<[i := x]> buf).
Proof.
  intros H. unfold store. rewrite Nat2N.id.
  destruct (decide (i < length buf)%nat); [reflexivity | contradiction].
Qed.

Lemma sample_lookup (buf : list R) (i : nat) :
  (i < length buf)%nat → buf !! i = Some (sample buf i).
Proof.
  intros H. apply lookup_lt_is_Some in H as [x Hx].
  unfold sample. now rewrite Hx.
Qed.

(** ** The loop rule

    An invariant [P k s] (the state [s] before iteration [k]) that every
    iteration re-establishes holds after the last one. *)

Lemma for_from_inv {S : Type} (P : nat → S → Prop)
    (body : N → S → outcome S) (count : nat) :
  ∀ (k0 : nat) (s : S),
    (N.of_nat (k0 + count) < UInt.modulus)%N →
    P k0 s →
    (∀ k s, (k0 ≤ k < k0 + count)%nat → P k s →
            ∃ s', body (N.of_nat k) s = Ok s' ∧ P (Datatypes.S k) s') →
    ∃ s', for_from count (N.of_nat k0) body s = Ok s'
          ∧ P (k0 + count)%nat s'.
Proof.
  induction count as [|c IH]; intros k0 s Hb HP Hstep.
  - exists s. rewrite Nat.add_0_r. now split.
  - destruct (Hstep k0 s ltac:(lia) HP) as (s1 & Hs1 & HP1).
    cbn [for_from]. rewrite Hs1. cbn.
    rewrite uint_succ_of_nat by lia.
    destruct (IH (Datatypes.S k0) s1) as (s' & Hs' & HP').
    + replace (Datatypes.S k0 + c)%nat with (k0 + Datatypes.S c)%nat by lia.
      exact Hb.
    + exact HP1.
    + intros k t Hk. apply Hstep. lia.
    + exists s'. split; [exact Hs'|].
      now replace (k0 + Datatypes.S c)%nat with (Datatypes.S k0 + c)%nat by lia.
Qed.

Lemma for_upto_inv {S : Type} (P : nat → S → Prop)
    (body : N → S → outcome S) (bound : N) (s : S) :
  (bound < UInt.modulus)%N →
  P O s →
  (∀ k s, (k < N.to_nat bound)%nat → P k s →
          ∃ s', body (N.of_nat k) s = Ok s' ∧ P (Datatypes.S k) s') →
  ∃ s', for_upto bound body s = Ok s' ∧ P (N.to_nat bound) s'.
Proof.
  intros Hb HP Hstep. unfold for_upto.
  apply (for_from_inv P body (N.to_nat bound) O s).
  - cbn. now rewrite N2Nat.id.
  - exact HP.
  - intros k t Hk. apply Hstep. lia.
Qed.

(** ** Complex arithmetic of the loop bodies *)

Lemma unit_exp_re (x : R) : Cplx.re (unit_exp x) = cos (2 * PI * x).
Proof. unfold unit_exp, Cplx.cexp. cbn. rewrite exp_0, cos_neg. lra. Qed.

Lemma unit_exp_im (x : R) : Cplx.im (unit_exp x) = - sin (2 * PI * x).
Proof. unfold unit_exp, Cplx.cexp. cbn. rewrite exp_0, sin_neg. lra. Qed.

Lemma dft_angle_eq (freq : N) (t : R) :
  dft_angle freq t = Cplx.mk 0 (- (2 * PI * (UInt.to_float freq * t))).
Proof. unfold dft_angle, Cplx.mulr, Cplx.rmul, Cplx.I. cbn. f_equal; ring. Qed.

Lemma fft_angle_eq (window i : N) :
  fft_angle window i
  = Cplx.mk 0 (- (2 * PI * (UInt.to_float i / UInt.to_float window))).
Proof.
  unfold fft_angle, Cplx.divr, Cplx.mulr, Cplx.rmul, Cplx.I. cbn.
  f_equal; unfold Rdiv; ring.
Qed.

Lemma dft_step_value (acc x : R) (freq : N) (t : R) :
  Cplx.to_float (Cplx.radd acc (Cplx.rmul x (Cplx.cexp (dft_angle freq t))))
  = acc + x * cos (2 * PI * (UInt.to_float freq * t)).
Proof.
  rewrite dft_angle_eq. fold (unit_exp (UInt.to_float freq * t)).
  unfold Cplx.to_float, Cplx.radd, Cplx.rmul. cbn [Cplx.re Cplx.im].
  now rewrite unit_exp_re.
Qed.

Lemma combine_lo_value (e o : R) (window i : N) :
  Cplx.to_float
    (Cplx.radd e (Cplx.mulr (Cplx.cexp (fft_angle window i)) o))
  = e + cos (2 * PI * (UInt.to_float i / UInt.to_float window)) * o.
Proof.
  rewrite fft_angle_eq.
  fold (unit_exp (UInt.to_float i / UInt.to_float window)).
  unfold Cplx.to_float, Cplx.radd, Cplx.mulr. cbn [Cplx.re Cplx.im].
  now rewrite unit_exp_re.
Qed.

Lemma combine_hi_value (e o : R) (window i : N) :
  Cplx.to_float
    (Cplx.rsub e (Cplx.mulr (Cplx.cexp (fft_angle window i)) o))
  = e - cos (2 * PI * (UInt.to_float i / UInt.to_float window)) * o.
Proof.
  rewrite fft_angle_eq.
  fold (unit_exp (UInt.to_float i / UInt.to_float window)).
  unfold Cplx.to_float, Cplx.rsub, Cplx.mulr. cbn [Cplx.re Cplx.im].
  now rewrite unit_exp_re.
Qed.

Lemma raw_butterfly_lo_eq (x : list R) (window i : nat) :
  raw_butterfly_lo x window i
  = sample x (2 * i)
    + cos (2 * PI * (INR i / INR window)) * sample x (2 * i + 1).
Proof.
  unfold raw_butterfly_lo, Cplx.add, Cplx.mul, Cplx.of_real.
  cbn [Cplx.re Cplx.im].
  rewrite unit_exp_re. ring.
Qed.

Lemma raw_butterfly_hi_eq (x : list R) (window i : nat) :
  raw_butterfly_hi x window i
  = sample x (2 * i)
    - cos (2 * PI * (INR i / INR window)) * sample x (2 * i + 1).
Proof.
  unfold raw_butterfly_hi, Cplx.sub, Cplx.mul, Cplx.of_real.
  cbn [Cplx.re Cplx.im].
  rewrite unit_exp_re. ring.
Qed.

(** ** Finite sums *)

Lemma Rsum_ext (n : nat) (f g : nat → R) :
  (∀ t, (t < n)%nat → f t = g t) → Rsum n f = Rsum n g.
Proof.
  induction n as [|n IH]; intros H; cbn; [reflexivity|].
  rewrite IH by (intros; apply H; lia). rewrite (H n) by lia. reflexivity.
Qed.

Lemma Csum_re (n : nat) (f : nat → Cplx.C) :
  Cplx.re (Csum n f) = Rsum n (fun t => Cplx.re (f t)).
Proof. induction n as [|n IH]; cbn; [reflexivity | now rewrite IH]. Qed.

Lemma Rsum_plus (n : nat) (f g : nat → R) :
  Rsum n (fun t => f t + g t) = Rsum n f + Rsum n g.
Proof. induction n as [|n IH]; cbn; [lra | rewrite IH; lra]. Qed.

Lemma Rsum_scal (n : nat) (a : R) (f : nat → R) :
  Rsum n (fun t => a * f t) = a * Rsum n f.
Proof. induction n as [|n IH]; cbn; [lra | rewrite IH; lra]. Qed.

(** The real part of the complex DFT bin is the cosine sum. *)
Lemma dft_bin_re (x : list R) (n freq : nat) :
  Cplx.re (dft_bin x n freq) = dft_re x n freq.
Proof.
  unfold dft_bin, dft_re. rewrite Csum_re. apply Rsum_ext. intros t _.
  unfold Cplx.mul, Cplx.of_real. cbn [Cplx.re Cplx.im].
  rewrite unit_exp_re.
  replace (INR freq * INR t / INR n) with (INR freq * (INR t / INR n))
    by (unfold Rdiv; ring).
  ring.
Qed.

(** ** Sequencing *)

Lemma bind_Ok {A B : Type} (a : A) (f : A → outcome B) : (Ok a ≫= f) = f a.
Proof. reflexivity. Qed.

Lemma to_float_to_nat (n : N) : UInt.to_float n = INR (N.to_nat n).
Proof. rewrite <- (N2Nat.id n) at 1. apply to_float_of_nat. Qed.

(** ** [dft]: the inner and the outer loop *)

(** The inner loop adds the cosine sum of bin [f] to [out[f]] and touches
    nothing else. *)
Lemma dft_inner_loop (in_frames out : list R) (n : N) (f : nat) :
  (n < UInt.modulus)%N →
  (N.to_nat n ≤ length in_frames)%nat →
  (f < length out)%nat →
  for_upto n (dft_frame_body in_frames n (N.of_nat f)) out
  = Ok (<[f := sample out f + dft_re in_frames (N.to_nat n) f]> out).
Proof.
  intros Hn Hin Hf.
  destruct (for_upto_inv
    (fun k o => o = <[f := sample out f
                           + Rsum k (fun t => sample in_frames t
                               * cos (2 * PI * (INR f * (INR t / INR (N.to_nat n)))))]> out)
    (dft_frame_body in_frames n (N.of_nat f)) n out Hn) as (o & Ho & HP).
  - cbn [Rsum]. rewrite Rplus_0_r. symmetry. apply list_insert_id.
    now apply sample_lookup.
  - intros k o Hk ->. eexists. split; [|reflexivity].
    unfold dft_frame_body.
    rewrite (load_Some _ f _ (list_lookup_insert_eq _ _ _ Hf)), bind_Ok.
    rewrite load_sample, bind_Ok by lia.
    rewrite store_in_range by (rewrite length_insert; exact Hf).
    rewrite list_insert_insert_eq, dft_step_value.
    rewrite !to_float_of_nat, to_float_to_nat.
    cbn [Rsum]. do 2 f_equal. ring.
  - rewrite Ho, HP. reflexivity.
Qed.

(** After [dft], every bin below [n] holds its cosine sum, and the rest of
    the output buffer is as it was. *)
Lemma dft_outer_loop (in_frames out : list R) (n : N) :
  (n < UInt.modulus)%N →
  (N.to_nat n ≤ length in_frames)%nat →
  (N.to_nat n ≤ length out)%nat →
  ∃ out', dft in_frames out n = Ok out'
    ∧ length out' = length out
    ∧ (∀ j, (j < N.to_nat n)%nat →
            out' !! j = Some (dft_re in_frames (N.to_nat n) j))
    ∧ (∀ j, (N.to_nat n ≤ j)%nat → out' !! j = out !! j).
Proof.
  intros Hn Hin Hout.
  destruct (for_upto_inv
    (fun k o => length o = length out
       ∧ ∀ j, o !! j = if decide (j < k)%nat
                       then Some (dft_re in_frames (N.to_nat n) j)
                       else out !! j)
    (dft_freq_body in_frames n) n out Hn) as (o & Ho & Hlen & HP).
  - split; [reflexivity|]. intros j.
    destruct (decide (j < 0)%nat); [lia | reflexivity].
  - intros k o Hk [Hlen HP]. unfold dft_freq_body.
    rewrite store_in_range, bind_Ok by lia.
    rewrite dft_inner_loop by (rewrite ?length_insert; lia).
    eexists. split; [reflexivity|].
    rewrite list_insert_insert_eq. split.
    + now rewrite length_insert.
    + intros j. destruct (decide (j = k)) as [->|Hjk].
      * rewrite list_lookup_insert_eq by lia.
        destruct (decide (k < Datatypes.S k)%nat); [|lia].
        f_equal. unfold sample at 1.
        rewrite list_lookup_insert_eq by lia. cbn. lra.
      * rewrite list_lookup_insert_ne by congruence. rewrite HP.
        destruct (decide (j < k)%nat), (decide (j < Datatypes.S k)%nat);
          try lia; reflexivity.
  - exists o. split; [exact Ho|]. split; [exact Hlen|]. split.
    + intros j Hj. rewrite HP. destruct (decide (j < N.to_nat n)%nat);
        [reflexivity | lia].
    + intros j Hj. rewrite HP. destruct (decide (j < N.to_nat n)%nat);
        [lia | reflexivity].
Qed.

(** ** [fft]: the split loop *)

Lemma evens_length (x : list R) (w : nat) : length (evens x w) = (w / 2)%nat.
Proof. unfold evens. now rewrite length_fmap, length_seq. Qed.

Lemma odds_length (x : list R) (w : nat) : length (odds x w) = (w / 2)%nat.
Proof. unfold odds. now rewrite length_fmap, length_seq. Qed.

Lemma evens_lookup (x : list R) (w i : nat) :
  (i < w / 2)%nat → evens x w !! i = Some (sample x (2 * i)).
Proof.
  intros H. unfold evens. now rewrite list_lookup_fmap, lookup_seq_lt.
Qed.

Lemma odds_lookup (x : list R) (w i : nat) :
  (i < w / 2)%nat → odds x w !! i = Some (sample x (2 * i + 1)).
Proof.
  intros H. unfold odds. now rewrite list_lookup_fmap, lookup_seq_lt.
Qed.

(** A list is determined by its length and its elements. *)
Lemma list_eq_lookup_lt (l k : list R) :
  length l = length k →
  (∀ i, (i < length k)%nat → l !! i = k !! i) →
  l = k.
Proof.
  intros Hlen H. apply list_eq. intros i.
  destruct (decide (i < length k)%nat) as [Hi|Hi]; [now apply H|].
  rewrite (proj2 (lookup_ge_None l i)), (proj2 (lookup_ge_None k i)) by lia.
  reflexivity.
Qed.

(** The split loop fills [even] and [odd] with the even-indexed and the
    odd-indexed samples. *)
Lemma split_loop (x : list R) (window : N) :
  (window < UInt.modulus)%N →
  (N.to_nat window ≤ length x)%nat →
  for_upto (UInt.div window 2) (split_body x)
    (alloca (UInt.div window 2), alloca (UInt.div window 2))
  = Ok (evens x (N.to_nat window), odds x (N.to_nat window)).
Proof.
  intros Hw Hx. set (w := N.to_nat window). set (h := (w / 2)%nat).
  assert (Hh : N.to_nat (UInt.div window 2) = h) by apply half_to_nat.
  destruct (for_upto_inv
    (fun k (eo : list R * list R) =>
       length eo.1 = h ∧ length eo.2 = h
       ∧ ∀ j, (j < k)%nat →
              eo.1 !! j = Some (sample x (2 * j))
              ∧ eo.2 !! j = Some (sample x (2 * j + 1)))
    (split_body x) (UInt.div window 2)
    (alloca (UInt.div window 2), alloca (UInt.div window 2)))
    as ([e o] & Hrun & He & Ho & HP).
  - unfold UInt.div, UInt.modulus in *. lia.
  - unfold alloca. cbn [fst snd]. rewrite !length_replicate.
    repeat split; try exact Hh; lia.
  - intros k [e o] Hk (He & Ho & HP). cbn [fst snd] in *.
    rewrite Hh in Hk. unfold split_body. cbn [fst snd].
    assert (Hk2 : (2 * k + 1 < w)%nat) by (subst h; lia).
    rewrite uint_mul_small by (unfold UInt.modulus in *; lia).
    replace (N.of_nat k * 2)%N with (N.of_nat (2 * k)) by lia.
    rewrite load_sample, bind_Ok by (fold w in Hx; lia).
    rewrite store_in_range, bind_Ok by lia.
    rewrite uint_add_small by (unfold UInt.modulus in *; lia).
    replace (N.of_nat (2 * k) + 1)%N with (N.of_nat (2 * k + 1)) by lia.
    rewrite load_sample, bind_Ok by (fold w in Hx; lia).
    rewrite store_in_range, bind_Ok by lia.
    eexists. split; [reflexivity|]. cbn [fst snd].
    rewrite !length_insert. repeat split; try assumption.
    + destruct (decide (j = k)) as [->|Hjk].
      * now rewrite list_lookup_insert_eq by lia.
      * rewrite list_lookup_insert_ne by congruence. apply HP. lia.
    + destruct (decide (j = k)) as [->|Hjk].
      * now rewrite list_lookup_insert_eq by lia.
      * rewrite list_lookup_insert_ne by congruence. apply HP. lia.
  - cbn [fst snd] in *. rewrite Hrun, Hh in *. f_equal. f_equal.
    + apply list_eq_lookup_lt; rewrite evens_length; [exact He|].
      intros i Hi. fold w h in Hi |- *.
      rewrite evens_lookup by exact Hi. now apply HP.
    + apply list_eq_lookup_lt; rewrite odds_length; [exact Ho|].
      intros i Hi. fold w h in Hi |- *.
      rewrite odds_lookup by exact Hi. now apply HP.
Qed.

(** ** [fft]: the combine loop *)

(** What the combine loop leaves at index [j] of a buffer that held [out]:
    a butterfly of raw samples below [2 * (w / 2)], the old element
    above. *)
Lemma combine_loop (x out : list R) (window : N) :
  (window < UInt.modulus)%N →
  (N.to_nat window ≤ length out)%nat →
  ∃ out',
    for_upto (UInt.div window 2)
      (combine_body (evens x (N.to_nat window)) (odds x (N.to_nat window))
         window) out = Ok out'
    ∧ length out' = length out
    ∧ ∀ j, out' !! j =
        if decide (j < N.to_nat window / 2)%nat
        then Some (raw_butterfly_lo x (N.to_nat window) j)
        else if decide (j < 2 * (N.to_nat window / 2))%nat
        then Some (raw_butterfly_hi x (N.to_nat window)
                     (j - N.to_nat window / 2))
        else out !! j.
Proof.
  intros Hw Hout. set (w := N.to_nat window) in *. set (h := (w / 2)%nat).
  assert (Hh : N.to_nat (UInt.div window 2) = h) by apply half_to_nat.
  destruct (for_upto_inv
    (fun k o =>
       length o = length out
       ∧ ∀ j, o !! j =
           if decide (j < k)%nat then Some (raw_butterfly_lo x w j)
           else if decide (h ≤ j < h + k)%nat
           then Some (raw_butterfly_hi x w (j - h))
           else out !! j)
    (combine_body (evens x w) (odds x w) window) (UInt.div window 2) out)
    as (o & Hrun & Hlen & HP).
  - unfold UInt.div, UInt.modulus in *. lia.
  - split; [reflexivity|]. intros j.
    destruct (decide (j < 0)%nat); [lia|].
    destruct (decide (h ≤ j < h + 0)%nat); [lia | reflexivity].
  - intros k o Hk [Hlen HP]. rewrite Hh in Hk. unfold combine_body. cbv zeta.
    assert (Hkw : (k + h < w)%nat) by (subst h; lia).
    rewrite (load_Some _ k _ (odds_lookup x w k Hk)), bind_Ok.
    rewrite (load_Some _ k _ (evens_lookup x w k Hk)), !bind_Ok.
    rewrite uint_add_small
      by (unfold UInt.div, UInt.modulus in *; subst h w; lia).
    replace (N.of_nat k + UInt.div window 2)%N with (N.of_nat (k + h))
      by (unfold UInt.div; subst h w; lia).
    eexists. split.
    { rewrite store_in_range, !bind_Ok by lia.
      rewrite store_in_range by (rewrite length_insert; lia).
      reflexivity. }
    split.
    + now rewrite !length_insert.
    + intros j. rewrite combine_lo_value, combine_hi_value.
      rewrite to_float_of_nat, to_float_to_nat. fold w.
      rewrite <- raw_butterfly_lo_eq, <- raw_butterfly_hi_eq.
      destruct (decide (j = k + h)%nat) as [->|Hj1].
      * rewrite list_lookup_insert_eq by (rewrite length_insert; lia).
        destruct (decide (k + h < Datatypes.S k)%nat); [lia|].
        destruct (decide (h ≤ k + h < h + Datatypes.S k)%nat); [|lia].
        do 2 f_equal. lia.
      * rewrite list_lookup_insert_ne by congruence.
        destruct (decide (j = k)) as [->|Hj2].
        -- rewrite list_lookup_insert_eq by lia.
           destruct (decide (k < Datatypes.S k)%nat); [reflexivity | lia].
        -- rewrite list_lookup_insert_ne by congruence. rewrite HP.
           destruct (decide (j < k)%nat), (decide (j < Datatypes.S k)%nat);
             try lia; try reflexivity.
           destruct (decide (h ≤ j < h + k)%nat),
             (decide (h ≤ j < h + Datatypes.S k)%nat);
             try lia; reflexivity.
  - exists o. split; [exact Hrun|]. split; [exact Hlen|]. intros j.
    rewrite HP, Hh. fold h.
    destruct (decide (j < h)%nat); [reflexivity|].
    destruct (decide (h ≤ j < h + h)%nat), (decide (j < 2 * h)%nat);
      try lia; reflexivity.
Qed.

(** The split loop followed by the combine loop. *)
Lemma butterfly_stage_spec (x out : list R) (window : N) :
  (window < UInt.modulus)%N →
  (N.to_nat window ≤ length x)%nat →
  (N.to_nat window ≤ length out)%nat →
  ∃ out',
    butterfly_stage x out window = Ok out'
    ∧ length out' = length out
    ∧ ∀ j, out' !! j =
        if decide (j < N.to_nat window / 2)%nat
        then Some (raw_butterfly_lo x (N.to_nat window) j)
        else if decide (j < 2 * (N.to_nat window / 2))%nat
        then Some (raw_butterfly_hi x (N.to_nat window)
                     (j - N.to_nat window / 2))
        else out !! j.
Proof.
  intros Hw Hx Hout. unfold butterfly_stage.
  rewrite split_loop, bind_Ok by assumption. cbn [fst snd].
  now apply combine_loop.
Qed.

(** ** [fft]: the recursion *)

Lemma fft_effect_frame (x out : list R) (window : N) :
  (window < UInt.modulus)%N →
  (N.to_nat window ≤ length x)%nat →
  (N.to_nat window ≤ length out)%nat →
  ∃ out', fft_effect x out window = Ok out'
    ∧ length out' = length out
    ∧ ∀ j, (2 * (N.to_nat window / 2) ≤ j)%nat → out' !! j = out !! j.
Proof.
  intros Hw Hx Hout. unfold fft_effect.
  destruct (window <=? 1)%N.
  - exists out. repeat split; reflexivity.
  - destruct (butterfly_stage_spec x out window Hw Hx Hout)
      as (o & Ho & Hlen & HP).
    exists o. split; [exact Ho|]. split; [exact Hlen|]. intros j Hj.
    rewrite HP.
    destruct (decide (j < N.to_nat window / 2)%nat); [lia|].
    destruct (decide (j < 2 * (N.to_nat window / 2))%nat); [lia|].
    reflexivity.
Qed.

(** With fuel for the whole nesting, a call of [fft] has the effect of its
    own activation alone: what the two recursive calls wrote is written
    over by the combine loop. *)
Lemma fft_fuel_effect (fuel : nat) :
  ∀ (x out : list R) (window : N),
    (0 < fuel)%nat →
    (window < 2 ^ N.of_nat fuel)%N →
    (window < UInt.modulus)%N →
    (N.to_nat window ≤ length x)%nat →
    (N.to_nat window ≤ length out)%nat →
    fft_fuel fuel x out window = fft_effect x out window.
Proof.
  induction fuel as [|f IH]; intros x out window Hf Hfuel Hw Hx Hout; [lia|].
  cbn [fft_fuel]. unfold fft_effect at 1.
  destruct (window <=? 1)%N eqn:E; [reflexivity|].
  apply N.leb_gt in E. cbv zeta.
  rewrite split_loop, bind_Ok by assumption. cbn [fst snd].
  set (w := N.to_nat window) in *. set (half := UInt.div window 2).
  assert (Hh : N.to_nat half = (w / 2)%nat) by apply half_to_nat.
  assert (Hhm : (half < UInt.modulus)%N)
    by (unfold half, UInt.div, UInt.modulus in *; lia).
  assert (Hf' : (0 < f)%nat).
  { destruct f; [|lia]. cbn in Hfuel. lia. }
  assert (Hfuel' : (half < 2 ^ N.of_nat f)%N).
  { rewrite Nat2N.inj_succ, N.pow_succ_r' in Hfuel.
    unfold half, UInt.div. lia. }
  rewrite (IH (evens x w) out half)
    by (rewrite ?evens_length; try assumption; lia).
  destruct (fft_effect_frame (evens x w) out half) as (o1 & -> & Hl1 & HP1);
    [rewrite ?evens_length; try assumption; lia ..|].
  rewrite bind_Ok.
  rewrite (IH (odds x w) o1 half)
    by (rewrite ?odds_length; try assumption; lia).
  destruct (fft_effect_frame (odds x w) o1 half) as (o2 & -> & Hl2 & HP2);
    [rewrite ?odds_length; try assumption; lia ..|].
  rewrite bind_Ok.
  destruct (combine_loop x o2 window Hw) as (o3 & Ho3 & Hl3 & HP3);
    [fold w; lia|].
  destruct (butterfly_stage_spec x out window Hw Hx Hout)
    as (o4 & Ho4 & Hl4 & HP4).
  fold w half in Ho3, HP3, Ho4, HP4. rewrite Ho3, Ho4. f_equal.
  apply list_eq. intros j. rewrite HP3, HP4.
  destruct (decide (j < w / 2)%nat); [reflexivity|].
  destruct (decide (j < 2 * (w / 2))%nat); [reflexivity|].
  rewrite HP2, HP1 by lia. reflexivity.
Qed.

Lemma fft_depth_enough (window : N) :
  (0 < fft_depth window)%nat ∧ (window < 2 ^ N.of_nat (fft_depth window))%N.
Proof.
  unfold fft_depth. split; [lia|].
  rewrite Nat2N.inj_succ, N2Nat.id.
  destruct (N.eq_dec window 0%N) as [->|Hz]; [reflexivity|].
  apply N.log2_spec. lia.
Qed.

Lemma fft_effect_eq (x out : list R) (window : N) :
  (window < UInt.modulus)%N →
  (N.to_nat window ≤ length x)%nat →
  (N.to_nat window ≤ length out)%nat →
  fft x out window = fft_effect x out window.
Proof.
  intros. unfold fft.
  destruct (fft_depth_enough window). now apply fft_fuel_effect.
Qed.

(** The base case: any positive amount of fuel, any buffers. *)
Lemma fft_fuel_base (fuel : nat) (x out : list R) (window : N) :
  (window <= 1)%N → fft_fuel (Datatypes.S fuel) x out window = Ok out.
Proof.
  intros Hw. cbn [fft_fuel]. now rewrite (proj2 (N.leb_le window 1) Hw).
Qed.

Lemma fft_base (x out : list R) (window : N) :
  (window <= 1)%N → fft x out window = Ok out.
Proof. intros Hw. unfold fft, fft_depth. now apply fft_fuel_base. Qed.

(** * The claims *)

(** ** The base case *)

(** C6: for [window <= 1] (0 or 1), whatever the input and the output
    buffer are, [fft] returns without writing: the output buffer after the
    call is the output buffer before it, element for element.  This holds
    with any positive amount of fuel. *)
Theorem fft_base_case_writes_nothing (x out : list R) (window : N) :
  (window <= 1)%N →
  fft x out window = Ok out
  ∧ ∀ fuel, fft_fuel (Datatypes.S fuel) x out window = Ok out.
Proof.
  intros Hw. split.
  - now apply fft_base.
  - intros fuel. now apply fft_fuel_base.
Qed.

Lemma fft_base_case_writes_nothing_witness :
  fft [7] [3] 1 = Ok [3]
  ∧ ∀ fuel, fft_fuel (Datatypes.S fuel) [7] [3] 1 = Ok [3].
Proof. apply (fft_base_case_writes_nothing [7] [3] 1%N). lia. Defined.

(** C4, as the specification states it, fails: [fft] with [window = 1] on
    the input [[1]] and an output buffer holding [[0]] does not leave the
    input sample in the output buffer. *)
Lemma fft_length1_not_identity :
  ¬ ∃ out', fft [1] [0] 1 = Ok out' ∧ out' !! 0%nat = Some 1.
Proof.
  intros (out' & Hrun & Hout).
  cbn in Hrun. injection Hrun as <-. cbn in Hout.
  injection Hout as H. lra.
Qed.

(** C4, amended: for a single-element input [s] and a single-element
    output buffer holding [o], [fft] with [window = 1] returns with the
    output buffer unchanged; its element equals the input sample exactly
    when the buffer already held that sample before the call. *)
Theorem fft_length1_keeps_output (s o : R) :
  ∃ out', fft [s] [o] 1 = Ok out'
    ∧ out' = [o]
    ∧ (out' !! 0%nat = Some s ↔ o = s).
Proof.
  exists [o]. split; [reflexivity|]. split; [reflexivity|].
  cbn. split; [now intros [= ->] | now intros ->].
Qed.

(** ** One butterfly stage *)

(** C3: for every [window >= 2] and every input, the output of
    [fft in out window] is that of one butterfly stage over the raw input:
    [out[i]] is the real part of [in[2i] + e^{-2 pi i * i/window} * in[2i+1]]
    and [out[i + window/2]] the real part of
    [in[2i] - e^{-2 pi i * i/window} * in[2i+1]], for every
    [i < window/2]; the call yields the very buffer that the split and
    combine loops yield with both recursive calls removed, so what the
    recursive calls wrote does not reach the final output. *)
Theorem fft_is_one_raw_butterfly_stage (x out : list R) (window : N) :
  (2 <= window)%N →
  (window < UInt.modulus)%N →
  (N.to_nat window ≤ length x)%nat →
  (N.to_nat window ≤ length out)%nat →
  ∃ out',
    fft x out window = Ok out'
    ∧ butterfly_stage x out window = Ok out'
    ∧ ∀ i, (i < N.to_nat window / 2)%nat →
        out' !! i = Some (raw_butterfly_lo x (N.to_nat window) i)
        ∧ out' !! (i + N.to_nat window / 2)%nat
          = Some (raw_butterfly_hi x (N.to_nat window) i).
Proof.
  intros H2 Hw Hx Hout.
  destruct (butterfly_stage_spec x out window Hw Hx Hout)
    as (o & Ho & Hlen & HP).
  exists o. split; [|split; [exact Ho|]].
  - rewrite fft_effect_eq by assumption. unfold fft_effect.
    now rewrite (proj2 (N.leb_gt window 1)) by lia.
  - intros i Hi. rewrite !HP. split.
    + destruct (decide (i < N.to_nat window / 2)%nat); [reflexivity | lia].
    + destruct (decide (i + N.to_nat window / 2 < N.to_nat window / 2)%nat);
        [lia|].
      destruct (decide (i + N.to_nat window / 2
                        < 2 * (N.to_nat window / 2))%nat); [|lia].
      do 2 f_equal. lia.
Qed.

Lemma fft_is_one_raw_butterfly_stage_witness :
  ∃ out',
    fft [1; 2; 3; 4] [0; 0; 0; 0] 4 = Ok out'
    ∧ butterfly_stage [1; 2; 3; 4] [0; 0; 0; 0] 4 = Ok out'
    ∧ ∀ i, (i < N.to_nat 4 / 2)%nat →
        out' !! i = Some (raw_butterfly_lo [1; 2; 3; 4] (N.to_nat 4) i)
        ∧ out' !! (i + N.to_nat 4 / 2)%nat
          = Some (raw_butterfly_hi [1; 2; 3; 4] (N.to_nat 4) i).
Proof.
  apply (fft_is_one_raw_butterfly_stage [1; 2; 3; 4] [0; 0; 0; 0] 4%N);
    [lia | reflexivity | simpl; lia | simpl; lia].
Defined.

(** ** The DFT *)

(** C5: for every [n >= 0] and every input of [n] samples,
    [dft in out n] leaves in every bin [freq < n] the sum over [t < n] of
    [in[t] * exp(-2 pi i * freq * t / n)], narrowed to its real part by the
    store into the [float] slot; the output buffer keeps its length and its
    elements from [n] on; and for [n = 0] the call does nothing. *)
Theorem dft_computes_real_projection (x out : list R) (n : N) :
  (n < UInt.modulus)%N →
  (N.to_nat n ≤ length x)%nat →
  (N.to_nat n ≤ length out)%nat →
  (∃ out',
      dft x out n = Ok out'
      ∧ length out' = length out
      ∧ (∀ freq, (freq < N.to_nat n)%nat →
           out' !! freq
           = Some (Cplx.to_float (dft_bin x (N.to_nat n) freq)))
      ∧ (∀ j, (N.to_nat n ≤ j)%nat → out' !! j = out !! j))
  ∧ dft x out 0 = Ok out.
Proof.
  intros Hn Hx Hout. split; [|reflexivity].
  destruct (dft_outer_loop x out n Hn Hx Hout) as (o & Ho & Hlen & Hlo & Hhi).
  exists o. repeat split; try assumption.
  intros freq Hf. unfold Cplx.to_float. rewrite dft_bin_re. now apply Hlo.
Qed.

Lemma dft_computes_real_projection_witness :
  (∃ out',
      dft [1; 2; 3] [9; 9; 9; 9] 3 = Ok out'
      ∧ length out' = length [9; 9; 9; 9]
      ∧ (∀ freq, (freq < N.to_nat 3)%nat →
           out' !! freq
           = Some (Cplx.to_float (dft_bin [1; 2; 3] (N.to_nat 3) freq)))
      ∧ (∀ j, (N.to_nat 3 ≤ j)%nat → out' !! j = [9; 9; 9; 9] !! j))
  ∧ dft [1; 2; 3] [9; 9; 9; 9] 0 = Ok [9; 9; 9; 9].
Proof.
  apply (dft_computes_real_projection [1; 2; 3] [9; 9; 9; 9] 3%N);
    [reflexivity | simpl; lia | simpl; lia].
Defined.

(** ** Termination and memory safety of [fft] *)

Lemma completes_bind {A B : Type} (m : outcome A) (f : A → outcome B) :
  completes m → (∀ a, completes (f a)) → completes (m ≫= f).
Proof. intros Hm Hf. destruct m; [apply Hf | easy | easy]. Qed.

Lemma load_completes (buf : list R) (i : N) : completes (load buf i).
Proof. unfold load. now destruct (buf !! N.to_nat i). Qed.

Lemma store_completes (buf : list R) (i : N) (v : R) :
  completes (store buf i v).
Proof. unfold store. now destruct (decide _). Qed.

Lemma for_from_completes {S : Type} (body : N → S → outcome S) (count : nat) :
  (∀ i s, completes (body i s)) →
  ∀ i s, completes (for_from count i body s).
Proof.
  intros Hbody. induction count as [|c IH]; intros i s; [easy|].
  cbn [for_from]. apply completes_bind; [apply Hbody | intros; apply IH].
Qed.

Lemma split_body_completes (x : list R) (i : N) (eo : list R * list R) :
  completes (split_body x i eo).
Proof.
  unfold split_body.
  repeat (apply completes_bind;
          [apply load_completes || apply store_completes | intros]).
  easy.
Qed.

Lemma combine_body_completes (even odd : list R) (window i : N)
    (out : list R) :
  completes (combine_body even odd window i out).
Proof.
  unfold combine_body. cbv zeta.
  repeat (apply completes_bind;
          [apply load_completes || apply store_completes | intros]).
  apply store_completes.
Qed.

(** Whatever the buffers, [fuel] activations are enough for a window below
    [2^fuel]: each nested call halves the window. *)
Lemma fft_fuel_completes (fuel : nat) :
  ∀ (x out : list R) (window : N),
    (0 < fuel)%nat →
    (window < 2 ^ N.of_nat fuel)%N →
    completes (fft_fuel fuel x out window).
Proof.
  induction fuel as [|f IH]; intros x out window Hf Hfuel; [lia|].
  cbn [fft_fuel]. destruct (window <=? 1)%N eqn:E; [easy|].
  apply N.leb_gt in E. cbv zeta.
  assert (Hf' : (0 < f)%nat).
  { destruct f; [|lia]. cbn in Hfuel. lia. }
  assert (Hfuel' : (UInt.div window 2 < 2 ^ N.of_nat f)%N).
  { rewrite Nat2N.inj_succ, N.pow_succ_r' in Hfuel. unfold UInt.div. lia. }
  apply completes_bind.
  { apply for_from_completes. intros. apply split_body_completes. }
  intros eo. apply completes_bind; [now apply IH|].
  intros out1. apply completes_bind; [now apply IH|].
  intros out2. apply for_from_completes.
  intros. apply combine_body_completes.
Qed.

Lemma pow2_half (k : nat) :
  UInt.div (2 ^ N.of_nat (Datatypes.S k)) 2 = (2 ^ N.of_nat k)%N.
Proof.
  unfold UInt.div. rewrite Nat2N.inj_succ, N.pow_succ_r'.
  rewrite N.mul_comm. apply N.div_mul. lia.
Qed.

Lemma pow2_lt_modulus (k : nat) :
  (k < 32)%nat → (2 ^ N.of_nat k < UInt.modulus)%N.
Proof. intros H. unfold UInt.modulus. apply N.pow_lt_mono_r; lia. Qed.

(** With [k] units of fuel the recursion on a window of [2^k] samples is
    cut short: it nests [k + 1] activations deep. *)
Lemma fft_fuel_too_little (k : nat) :
  ∀ (x out : list R),
    (k < 32)%nat →
    (N.to_nat (2 ^ N.of_nat k) ≤ length x)%nat →
    fft_fuel k x out (2 ^ N.of_nat k) = OutOfFuel.
Proof.
  induction k as [|k IH]; intros x out Hk Hx; [reflexivity|].
  cbn [fft_fuel].
  assert (H2 : (2 <= 2 ^ N.of_nat (Datatypes.S k))%N).
  { rewrite Nat2N.inj_succ, N.pow_succ_r'.
    assert (0 < 2 ^ N.of_nat k)%N by (apply N.neq_0_lt_0, N.pow_nonzero; lia).
    lia. }
  rewrite (proj2 (N.leb_gt _ 1)) by lia. cbv zeta.
  rewrite split_loop, bind_Ok by (auto using pow2_lt_modulus).
  cbn [fst snd]. rewrite pow2_half.
  rewrite IH; [reflexivity | lia |].
  rewrite evens_length, <- half_to_nat, pow2_half. lia.
Qed.

(** C9: on a power-of-two window [2^k], [fft] terminates: [k + 1] nested
    activations, one per halving down to the base case [window <= 1], are
    enough and are needed, so the nesting depth is [log2 window + 1]; any
    larger amount of fuel gives the same result, which is the result of the
    total function [fft]; and with more than [k] units of fuel no run stops
    for lack of fuel, whatever buffers it is given. *)
Theorem fft_terminates_at_log_depth (k : nat) (x out : list R) :
  (k < 32)%nat →
  (N.to_nat (2 ^ N.of_nat k) ≤ length x)%nat →
  (N.to_nat (2 ^ N.of_nat k) ≤ length out)%nat →
  (∃ out',
      fft x out (2 ^ N.of_nat k) = Ok out'
      ∧ (∀ fuel, (k < fuel)%nat →
           fft_fuel fuel x out (2 ^ N.of_nat k) = Ok out'))
  ∧ fft_depth (2 ^ N.of_nat k) = Datatypes.S k
  ∧ fft_fuel k x out (2 ^ N.of_nat k) = OutOfFuel
  ∧ (∀ (x' out' : list R) (fuel : nat), (k < fuel)%nat →
       completes (fft_fuel fuel x' out' (2 ^ N.of_nat k))).
Proof.
  intros Hk Hx Hout. set (window := (2 ^ N.of_nat k)%N) in *.
  assert (Hw : (window < UInt.modulus)%N) by now apply pow2_lt_modulus.
  assert (Hpow : ∀ fuel, (k < fuel)%nat → (window < 2 ^ N.of_nat fuel)%N).
  { intros fuel Hfuel. unfold window. apply N.pow_lt_mono_r; lia. }
  destruct (fft_effect_frame x out window Hw Hx) as (o & Ho & _);
    [lia|].
  split; [|split; [|split]].
  - exists o. split; [now rewrite fft_effect_eq|].
    intros fuel Hfuel. rewrite fft_fuel_effect; auto. lia.
  - unfold fft_depth, window. now rewrite N.log2_pow2, Nat2N.id by lia.
  - now apply fft_fuel_too_little.
  - intros x' out' fuel Hfuel. apply fft_fuel_completes; [lia | auto].
Qed.

Lemma fft_terminates_at_log_depth_witness :
  (∃ out',
      fft [1; 2; 3; 4] [0; 0; 0; 0] (2 ^ N.of_nat 2) = Ok out'
      ∧ (∀ fuel, (2 < fuel)%nat →
           fft_fuel fuel [1; 2; 3; 4] [0; 0; 0; 0] (2 ^ N.of_nat 2)
           = Ok out'))
  ∧ fft_depth (2 ^ N.of_nat 2) = 3%nat
  ∧ fft_fuel 2 [1; 2; 3; 4] [0; 0; 0; 0] (2 ^ N.of_nat 2) = OutOfFuel
  ∧ (∀ (x' out' : list R) (fuel : nat), (2 < fuel)%nat →
       completes (fft_fuel fuel x' out' (2 ^ N.of_nat 2))).
Proof.
  apply (fft_terminates_at_log_depth 2 [1; 2; 3; 4] [0; 0; 0; 0]);
    [lia | simpl; lia | simpl; lia].
Defined.

Lemma sample_take (x : list R) (w i : nat) :
  (i < w)%nat → sample (take w x) i = sample x i.
Proof. intros H. unfold sample. now rewrite lookup_take_lt. Qed.

(** The effect of an activation depends on the first [window] input
    samples only. *)
Lemma fft_effect_take (x out : list R) (window : N) :
  (window < UInt.modulus)%N →
  (N.to_nat window ≤ length x)%nat →
  (N.to_nat window ≤ length out)%nat →
  fft_effect (take (N.to_nat window) x) out window = fft_effect x out window.
Proof.
  intros Hw Hx Hout. unfold fft_effect.
  destruct (window <=? 1)%N; [reflexivity|].
  destruct (butterfly_stage_spec x out window Hw Hx Hout)
    as (o & -> & Hlen & HP).
  destruct (butterfly_stage_spec (take (N.to_nat window) x) out window Hw)
    as (o' & -> & Hlen' & HP'); [rewrite length_take; lia | exact Hout |].
  f_equal. apply list_eq. intros j. rewrite HP, HP'.
  unfold raw_butterfly_lo, raw_butterfly_hi.
  destruct (decide (j < N.to_nat window / 2)%nat).
  - now rewrite !sample_take by lia.
  - destruct (decide (j < 2 * (N.to_nat window / 2))%nat); [|reflexivity].
    now rewrite !sample_take by lia.
Qed.

(** C10: for every [window >= 0], a power of two or not, [fft] on buffers
    that hold at least [window] elements completes without an access out
    of range, in the input, the output and its local arrays alike; it
    reads no input sample at an index [>= window] (cutting the input to its
    first [window] samples changes nothing) and leaves every output element
    at an index [>= window], and the length of the buffer, as they were. *)
Theorem fft_accesses_in_range (x out : list R) (window : N) :
  (window < UInt.modulus)%N →
  (N.to_nat window ≤ length x)%nat →
  (N.to_nat window ≤ length out)%nat →
  ∃ out',
    fft x out window = Ok out'
    ∧ fft (take (N.to_nat window) x) out window = Ok out'
    ∧ length out' = length out
    ∧ ∀ j, (N.to_nat window ≤ j)%nat → out' !! j = out !! j.
Proof.
  intros Hw Hx Hout.
  destruct (fft_effect_frame x out window Hw Hx Hout) as (o & Ho & Hlen & HP).
  exists o. split; [|split; [|split]].
  - now rewrite fft_effect_eq.
  - rewrite fft_effect_eq, fft_effect_take; try assumption.
    rewrite length_take. lia.
  - exact Hlen.
  - intros j Hj. apply HP. lia.
Qed.

Lemma fft_accesses_in_range_witness :
  ∃ out',
    fft [1; 2; 3; 4; 5; 6] [9; 9; 9; 9; 9; 9] 5 = Ok out'
    ∧ fft (take (N.to_nat 5) [1; 2; 3; 4; 5; 6]) [9; 9; 9; 9; 9; 9] 5
      = Ok out'
    ∧ length out' = length [9; 9; 9; 9; 9; 9]
    ∧ ∀ j, (N.to_nat 5 ≤ j)%nat → out' !! j = [9; 9; 9; 9; 9; 9] !! j.
Proof.
  apply (fft_accesses_in_range [1; 2; 3; 4; 5; 6] [9; 9; 9; 9; 9; 9] 5%N);
    [reflexivity | simpl; lia | simpl; lia].
Defined.

(** ** Linearity *)

Lemma lincomb_length (a b : R) (x y : list R) (n : nat) :
  (n ≤ length x)%nat → (n ≤ length y)%nat →
  (n ≤ length (lincomb a b x y))%nat.
Proof. intros Hx Hy. unfold lincomb. rewrite length_zip_with. lia. Qed.

Lemma sample_lincomb (a b : R) (x y : list R) (i : nat) :
  (i < length x)%nat → (i < length y)%nat →
  sample (lincomb a b x y) i = a * sample x i + b * sample y i.
Proof.
  intros Hx Hy. unfold sample at 1, lincomb.
  rewrite lookup_zip_with.
  now rewrite (sample_lookup x i Hx), (sample_lookup y i Hy).
Qed.

Lemma dft_re_lincomb (a b : R) (x y : list R) (n k : nat) :
  (n ≤ length x)%nat → (n ≤ length y)%nat →
  dft_re (lincomb a b x y) n k = a * dft_re x n k + b * dft_re y n k.
Proof.
  intros Hx Hy. unfold dft_re.
  rewrite <- !Rsum_scal, <- Rsum_plus. apply Rsum_ext. intros t Ht.
  rewrite sample_lincomb by lia. ring.
Qed.

Lemma raw_butterfly_lo_lincomb (a b : R) (x y : list R) (w i : nat) :
  (w ≤ length x)%nat → (w ≤ length y)%nat → (i < w / 2)%nat →
  raw_butterfly_lo (lincomb a b x y) w i
  = a * raw_butterfly_lo x w i + b * raw_butterfly_lo y w i.
Proof.
  intros Hx Hy Hi. rewrite !raw_butterfly_lo_eq.
  rewrite !sample_lincomb by lia. ring.
Qed.

Lemma raw_butterfly_hi_lincomb (a b : R) (x y : list R) (w i : nat) :
  (w ≤ length x)%nat → (w ≤ length y)%nat → (i < w / 2)%nat →
  raw_butterfly_hi (lincomb a b x y) w i
  = a * raw_butterfly_hi x w i + b * raw_butterfly_hi y w i.
Proof.
  intros Hx Hy Hi. rewrite !raw_butterfly_hi_eq.
  rewrite !sample_lincomb by lia. ring.
Qed.

Lemma pow2_even (e : nat) :
  (1 ≤ e)%nat →
  (2 <= 2 ^ N.of_nat e)%N
  ∧ (2 * (N.to_nat (2 ^ N.of_nat e) / 2))%nat = N.to_nat (2 ^ N.of_nat e).
Proof.
  intros He. destruct e as [|e]; [lia|].
  rewrite Nat2N.inj_succ, N.pow_succ_r'.
  assert (0 < 2 ^ N.of_nat e)%N by (apply N.neq_0_lt_0, N.pow_nonzero; lia).
  split; lia.
Qed.

(** Linearity of [dft], for every [n] and whatever the three output
    buffers held before. *)
Lemma dft_linear (a b : R) (x y out outx outy : list R) (n : N) :
  (n < UInt.modulus)%N →
  (N.to_nat n ≤ length x)%nat → (N.to_nat n ≤ length y)%nat →
  (N.to_nat n ≤ length out)%nat →
  (N.to_nat n ≤ length outx)%nat → (N.to_nat n ≤ length outy)%nat →
  ∃ oz ox oy,
    dft (lincomb a b x y) out n = Ok oz
    ∧ dft x outx n = Ok ox ∧ dft y outy n = Ok oy
    ∧ ∀ k, (k < N.to_nat n)%nat →
        ∃ u v, ox !! k = Some u ∧ oy !! k = Some v
               ∧ oz !! k = Some (a * u + b * v).
Proof.
  intros Hn Hx Hy Ho Hox Hoy.
  destruct (dft_outer_loop (lincomb a b x y) out n Hn)
    as (oz & Hz & _ & Pz & _); [now apply lincomb_length | exact Ho |].
  destruct (dft_outer_loop x outx n Hn Hx Hox) as (ox & Hx' & _ & Px & _).
  destruct (dft_outer_loop y outy n Hn Hy Hoy) as (oy & Hy' & _ & Py & _).
  exists oz, ox, oy. repeat split; try assumption.
  intros k Hk. eexists _, _. split; [now apply Px|]. split; [now apply Py|].
  rewrite Pz by exact Hk. now rewrite dft_re_lincomb.
Qed.

(** Linearity of [fft] on an even window of at least two samples. *)
Lemma fft_linear (a b : R) (x y out outx outy : list R) (n : N) :
  (2 <= n)%N → (2 * (N.to_nat n / 2))%nat = N.to_nat n →
  (n < UInt.modulus)%N →
  (N.to_nat n ≤ length x)%nat → (N.to_nat n ≤ length y)%nat →
  (N.to_nat n ≤ length out)%nat →
  (N.to_nat n ≤ length outx)%nat → (N.to_nat n ≤ length outy)%nat →
  ∃ oz ox oy,
    fft (lincomb a b x y) out n = Ok oz
    ∧ fft x outx n = Ok ox ∧ fft y outy n = Ok oy
    ∧ ∀ k, (k < N.to_nat n)%nat →
        ∃ u v, ox !! k = Some u ∧ oy !! k = Some v
               ∧ oz !! k = Some (a * u + b * v).
Proof.
  intros H2 Hev Hn Hx Hy Ho Hox Hoy.
  assert (Hz : (N.to_nat n ≤ length (lincomb a b x y))%nat)
    by now apply lincomb_length.
  rewrite !fft_effect_eq by assumption. unfold fft_effect.
  rewrite (proj2 (N.leb_gt n 1)) by lia.
  destruct (butterfly_stage_spec (lincomb a b x y) out n Hn Hz Ho)
    as (oz & -> & _ & Pz).
  destruct (butterfly_stage_spec x outx n Hn Hx Hox) as (ox & -> & _ & Px).
  destruct (butterfly_stage_spec y outy n Hn Hy Hoy) as (oy & -> & _ & Py).
  exists oz, ox, oy. repeat split.
  intros k Hk. rewrite Pz, Px, Py.
  destruct (decide (k < N.to_nat n / 2)%nat).
  - eexists _, _. repeat split.
    now rewrite raw_butterfly_lo_lincomb by assumption.
  - destruct (decide (k < 2 * (N.to_nat n / 2))%nat); [|lia].
    eexists _, _. repeat split.
    now rewrite raw_butterfly_hi_lincomb by (assumption || lia).
Qed.

(** C7, as the specification states it, fails for [fft] on the
    power-of-two length 1: the call writes nothing, so with an output
    buffer that held [[5]] the transform of [1*[1] + 1*[1]] is 5, not
    [1*5 + 1*5]. *)
Lemma fft_length1_not_linear :
  ¬ ∃ oz ox oy u v,
      fft (lincomb 1 1 [1] [1]) [5] 1 = Ok oz
      ∧ fft [1] [5] 1 = Ok ox ∧ fft [1] [5] 1 = Ok oy
      ∧ ox !! 0%nat = Some u ∧ oy !! 0%nat = Some v
      ∧ oz !! 0%nat = Some (1 * u + 1 * v).
Proof.
  intros (oz & ox & oy & u & v & Hz & Hx & Hy & Hu & Hv & Huv).
  rewrite fft_base in Hz, Hx, Hy by lia.
  injection Hz as <-. injection Hx as <-. injection Hy as <-.
  cbn in Hu, Hv, Huv.
  injection Hu as <-. injection Hv as <-. injection Huv as H. lra.
Qed.

(** C7, amended: [dft] is linear for every length [n], and [fft] is linear
    for every power-of-two length [n >= 2]: transforming [a*x + b*y]
    yields, bin by bin, [a] times the transform of [x] plus [b] times the
    transform of [y], whatever the output buffers held before. *)
Theorem transforms_are_linear (a b : R) (x y out outx outy : list R)
    (n : N) :
  (n < UInt.modulus)%N →
  (N.to_nat n ≤ length x)%nat → (N.to_nat n ≤ length y)%nat →
  (N.to_nat n ≤ length out)%nat →
  (N.to_nat n ≤ length outx)%nat → (N.to_nat n ≤ length outy)%nat →
  (∃ oz ox oy,
      dft (lincomb a b x y) out n = Ok oz
      ∧ dft x outx n = Ok ox ∧ dft y outy n = Ok oy
      ∧ ∀ k, (k < N.to_nat n)%nat →
          ∃ u v, ox !! k = Some u ∧ oy !! k = Some v
                 ∧ oz !! k = Some (a * u + b * v))
  ∧ (∀ e, (1 ≤ e)%nat → n = (2 ^ N.of_nat e)%N →
      ∃ oz ox oy,
        fft (lincomb a b x y) out n = Ok oz
        ∧ fft x outx n = Ok ox ∧ fft y outy n = Ok oy
        ∧ ∀ k, (k < N.to_nat n)%nat →
            ∃ u v, ox !! k = Some u ∧ oy !! k = Some v
                   ∧ oz !! k = Some (a * u + b * v)).
Proof.
  intros Hn Hx Hy Ho Hox Hoy. split.
  - now apply dft_linear.
  - intros e He ->. destruct (pow2_even e He) as [H2 Hev].
    now apply fft_linear.
Qed.

Lemma transforms_are_linear_witness :
  (∃ oz ox oy,
      dft (lincomb 2 3 [1; 2] [3; 4]) [0; 0] 2 = Ok oz
      ∧ dft [1; 2] [5; 5] 2 = Ok ox ∧ dft [3; 4] [7; 7] 2 = Ok oy
      ∧ ∀ k, (k < N.to_nat 2)%nat →
          ∃ u v, ox !! k = Some u ∧ oy !! k = Some v
                 ∧ oz !! k = Some (2 * u + 3 * v))
  ∧ (∃ oz ox oy,
      fft (lincomb 2 3 [1; 2] [3; 4]) [0; 0] 2 = Ok oz
      ∧ fft [1; 2] [5; 5] 2 = Ok ox ∧ fft [3; 4] [7; 7] 2 = Ok oy
      ∧ ∀ k, (k < N.to_nat 2)%nat →
          ∃ u v, ox !! k = Some u ∧ oy !! k = Some v
                 ∧ oz !! k = Some (2 * u + 3 * v)).
Proof.
  destruct (transforms_are_linear 2 3 [1; 2] [3; 4] [0; 0] [5; 5] [7; 7] 2%N)
    as [Hdft Hfft]; [reflexivity | simpl; lia ..|].
  split; [exact Hdft | exact (Hfft 1%nat (le_n 1) eq_refl)].
Defined.

(** ** Constant input *)

Lemma Rsum_const (n : nat) (c : R) : Rsum n (fun _ => c) = c * INR n.
Proof.
  induction n as [|n IH]; [cbn; lra|].
  cbn [Rsum]. rewrite IH, S_INR. ring.
Qed.

(** [2 sin(th/2) * sum_{t<m} cos(t th)] telescopes. *)
Lemma cos_sum_telescope (th : R) (m : nat) :
  2 * sin (th / 2) * Rsum m (fun t => cos (INR t * th))
  = sin ((INR m - 1 / 2) * th) + sin (th / 2).
Proof.
  induction m as [|m IH].
  - cbn [Rsum INR].
    replace ((0 - 1 / 2) * th) with (- (th / 2)) by field.
    rewrite sin_neg. ring.
  - cbn [Rsum]. rewrite Rmult_plus_distr_l, IH, S_INR.
    replace ((INR m + 1 - 1 / 2) * th) with (INR m * th + th / 2) by field.
    replace ((INR m - 1 / 2) * th) with (INR m * th - th / 2) by field.
    rewrite sin_plus, sin_minus. ring.
Qed.

(** The cosines of the multiples of a non-trivial [n]-th root of unity sum
    to zero. *)
Lemma cos_sum_roots (n k : nat) :
  (0 < k < n)%nat →
  Rsum n (fun t => cos (2 * PI * (INR k * (INR t / INR n)))) = 0.
Proof.
  intros [Hk Hn].
  assert (Hk' : 0 < INR k) by (apply lt_0_INR; lia).
  assert (Hn' : 0 < INR n) by (apply lt_0_INR; lia).
  assert (Hkn : INR k < INR n) by (apply lt_INR; lia).
  pose proof PI_RGT_0 as Hpi.
  set (th := 2 * PI * INR k / INR n).
  rewrite (Rsum_ext n _ (fun t => cos (INR t * th))).
  2:{ intros t _. f_equal. unfold th. field. lra. }
  pose proof (cos_sum_telescope th n) as H.
  replace ((INR n - 1 / 2) * th) with (- (th / 2) + 2 * INR k * PI) in H
    by (unfold th; field; lra).
  rewrite sin_period, sin_neg in H.
  assert (Hs : 0 < sin (th / 2)).
  { assert (Hq : 0 < INR k / INR n < 1).
    { split; [now apply Rdiv_lt_0_compat|].
      apply (Rmult_lt_reg_r (INR n)); [exact Hn'|].
      unfold Rdiv. rewrite Rmult_assoc, Rinv_l by lra. lra. }
    replace (th / 2) with (PI * (INR k / INR n)) by (unfold th; field; lra).
    apply sin_gt_0; nra. }
  nra.
Qed.

Lemma dft_re_constant (c : R) (n k : nat) :
  (k < n)%nat →
  dft_re (replicate n c) n k = if decide (k = 0)%nat then c * INR n else 0.
Proof.
  intros Hk. unfold dft_re.
  rewrite (Rsum_ext n _
    (fun t => c * cos (2 * PI * (INR k * (INR t / INR n))))).
  2:{ intros t Ht. unfold sample.
      now rewrite (lookup_replicate_2 n c t Ht). }
  rewrite Rsum_scal.
  destruct (decide (k = 0)%nat) as [->|Hk0].
  - rewrite (Rsum_ext n _ (fun _ => 1)), Rsum_const; [ring|].
    intros t _. cbn [INR].
    replace (2 * PI * (0 * (INR t / INR n))) with 0 by ring.
    apply cos_0.
  - rewrite cos_sum_roots by lia. ring.
Qed.

(** On the constant input, [dft] leaves [c * n] in bin 0 and 0 in every
    other bin. *)
Lemma dft_constant (c : R) (n : N) (out : list R) :
  (n < UInt.modulus)%N →
  (N.to_nat n ≤ length out)%nat →
  ∃ out',
    dft (replicate (N.to_nat n) c) out n = Ok out'
    ∧ (∀ k, (k < N.to_nat n)%nat →
         out' !! k = Some (if decide (k = 0)%nat
                           then c * INR (N.to_nat n) else 0)).
Proof.
  intros Hn Hout.
  destruct (dft_outer_loop (replicate (N.to_nat n) c) out n Hn)
    as (o & Ho & _ & HP & _); [rewrite length_replicate; lia | exact Hout |].
  exists o. split; [exact Ho|]. intros k Hk.
  rewrite HP by exact Hk. now rewrite dft_re_constant.
Qed.

(** ** [fft] on two and on four samples *)

Lemma fft_window2 (a b : R) (out : list R) :
  (2 ≤ length out)%nat →
  ∃ out',
    fft [a; b] out 2 = Ok out'
    ∧ out' !! 0%nat = Some (a + b) ∧ out' !! 1%nat = Some (a - b).
Proof.
  intros Hout.
  destruct (butterfly_stage_spec [a; b] out 2%N) as (o & Ho & _ & HP);
    [reflexivity | cbn; lia | cbn; lia |].
  exists o. split.
  { rewrite fft_effect_eq; [exact Ho | reflexivity | cbn; lia | cbn; lia]. }
  change (N.to_nat 2) with 2%nat in HP. change (2 / 2)%nat with 1%nat in HP.
  assert (Hc : cos (2 * PI * (INR 0 / INR 2)) = 1).
  { replace (2 * PI * (INR 0 / INR 2)) with 0
      by (cbn [INR]; unfold Rdiv; ring).
    apply cos_0. }
  split.
  - rewrite HP. destruct (decide (0 < 1)%nat); [|lia].
    rewrite raw_butterfly_lo_eq, Hc. f_equal. unfold sample. cbn. ring.
  - rewrite HP. destruct (decide (1 < 1)%nat); [lia|].
    destruct (decide (1 < 2 * 1)%nat); [|lia].
    change (1 - 1)%nat with 0%nat.
    rewrite raw_butterfly_hi_eq, Hc. f_equal. unfold sample. cbn. ring.
Qed.

(** On four samples [fft] returns [a + b; c; a - b; c]: neither a sum of
    all four samples nor anything that depends on the last one. *)
Lemma fft_window4 (a b c d : R) (out : list R) :
  (4 ≤ length out)%nat →
  ∃ out',
    fft [a; b; c; d] out 4 = Ok out'
    ∧ out' !! 0%nat = Some (a + b) ∧ out' !! 1%nat = Some c
    ∧ out' !! 2%nat = Some (a - b) ∧ out' !! 3%nat = Some c.
Proof.
  intros Hout.
  destruct (butterfly_stage_spec [a; b; c; d] out 4%N) as (o & Ho & _ & HP);
    [reflexivity | cbn; lia | cbn; lia |].
  exists o. split.
  { rewrite fft_effect_eq; [exact Ho | reflexivity | cbn; lia | cbn; lia]. }
  change (N.to_nat 4) with 4%nat in HP. change (4 / 2)%nat with 2%nat in HP.
  assert (Hc0 : cos (2 * PI * (INR 0 / INR 4)) = 1).
  { replace (2 * PI * (INR 0 / INR 4)) with 0
      by (cbn [INR]; unfold Rdiv; ring).
    apply cos_0. }
  assert (Hc1 : cos (2 * PI * (INR 1 / INR 4)) = 0).
  { replace (2 * PI * (INR 1 / INR 4)) with (PI / 2) by (cbn [INR]; field).
    apply cos_PI2. }
  repeat split.
  - rewrite HP. destruct (decide (0 < 2)%nat); [|lia].
    rewrite raw_butterfly_lo_eq, Hc0. f_equal. unfold sample. cbn. ring.
  - rewrite HP. destruct (decide (1 < 2)%nat); [|lia].
    rewrite raw_butterfly_lo_eq, Hc1. f_equal. unfold sample. cbn. ring.
  - rewrite HP. destruct (decide (2 < 2)%nat); [lia|].
    destruct (decide (2 < 2 * 2)%nat); [|lia].
    change (2 - 2)%nat with 0%nat.
    rewrite raw_butterfly_hi_eq, Hc0. f_equal. unfold sample. cbn. ring.
  - rewrite HP. destruct (decide (3 < 2)%nat); [lia|].
    destruct (decide (3 < 2 * 2)%nat); [|lia].
    change (3 - 2)%nat with 1%nat.
    rewrite raw_butterfly_hi_eq, Hc1. f_equal. unfold sample. cbn. ring.
Qed.

(** C8, as the specification states it, fails for [fft]: on the constant
    input of value 1 and a zeroed output buffer, bin 0 is not [c * n],
    neither for [n = 1] (nothing is written) nor for [n = 4] (bin 0 is
    the sum of the first two samples only). *)
Lemma fft_constant_input_not_concentrated :
  (¬ ∃ out', fft (replicate 1 1) [0] 1 = Ok out'
             ∧ out' !! 0%nat = Some (1 * INR 1))
  ∧ (¬ ∃ out', fft (replicate 4 1) [0; 0; 0; 0] 4 = Ok out'
               ∧ out' !! 0%nat = Some (1 * INR 4)).
Proof.
  split.
  - intros (o & Ho & H0). rewrite fft_base in Ho by lia.
    injection Ho as <-. cbn in H0. injection H0 as H. lra.
  - intros (o & Ho & H0).
    destruct (fft_window4 1 1 1 1 [0; 0; 0; 0]) as (o' & Ho' & H0' & _);
      [cbn; lia|].
    change (replicate 4 1) with [1; 1; 1; 1] in Ho.
    rewrite Ho' in Ho. injection Ho as <-. rewrite H0' in H0.
    injection H0 as H. cbn in H. lra.
Qed.

(** C8, amended: for every [n >= 1] and every constant [c], [dft] on the
    all-constant input of value [c] leaves [c * n] in bin 0 and 0 in every
    bin [1 <= k < n]; [fft] gives the same result for [n = 2], and for
    [n = 1] leaves the output buffer as it was. *)
Theorem constant_input_spectrum (c : R) (n : N) (out out2 out1 : list R) :
  (1 <= n)%N →
  (n < UInt.modulus)%N →
  (N.to_nat n ≤ length out)%nat →
  (2 ≤ length out2)%nat →
  (∃ out',
      dft (replicate (N.to_nat n) c) out n = Ok out'
      ∧ out' !! 0%nat = Some (c * INR (N.to_nat n))
      ∧ ∀ k, (1 ≤ k < N.to_nat n)%nat → out' !! k = Some 0)
  ∧ (∃ out',
      fft (replicate 2 c) out2 2 = Ok out'
      ∧ out' !! 0%nat = Some (c * 2)
      ∧ out' !! 1%nat = Some 0)
  ∧ fft (replicate 1 c) out1 1 = Ok out1.
Proof.
  intros H1 Hn Hout Hout2. split; [|split].
  - destruct (dft_constant c n out Hn Hout) as (o & Ho & HP).
    exists o. split; [exact Ho|]. split.
    + rewrite HP by lia. now destruct (decide (0 = 0)%nat).
    + intros k Hk. rewrite HP by lia.
      destruct (decide (k = 0)%nat); [lia | reflexivity].
  - destruct (fft_window2 c c out2 Hout2) as (o & Ho & H0 & H1').
    exists o. split; [exact Ho|]. split.
    + rewrite H0. f_equal. ring.
    + rewrite H1'. f_equal. ring.
  - apply fft_base. lia.
Qed.

Lemma constant_input_spectrum_witness :
  (∃ out',
      dft (replicate (N.to_nat 4) 3) [9; 9; 9; 9] 4 = Ok out'
      ∧ out' !! 0%nat = Some (3 * INR (N.to_nat 4))
      ∧ ∀ k, (1 ≤ k < N.to_nat 4)%nat → out' !! k = Some 0)
  ∧ (∃ out',
      fft (replicate 2 3) [9; 9] 2 = Ok out'
      ∧ out' !! 0%nat = Some (3 * 2)
      ∧ out' !! 1%nat = Some 0)
  ∧ fft (replicate 1 3) [9] 1 = Ok [9].
Proof.
  apply (constant_input_spectrum 3 4%N [9; 9; 9; 9] [9; 9] [9]);
    [lia | reflexivity | simpl; lia | simpl; lia].
Defined.

(** ** [fft] against [dft] *)

(** On two samples both transforms return [a + b; a - b]. *)
Lemma dft_window2 (a b : R) (out : list R) :
  (2 ≤ length out)%nat →
  ∃ out',
    dft [a; b] out 2 = Ok out'
    ∧ out' !! 0%nat = Some (a + b) ∧ out' !! 1%nat = Some (a - b).
Proof.
  intros Hout.
  destruct (dft_outer_loop [a; b] out 2%N) as (o & Ho & _ & HP & _);
    [reflexivity | cbn; lia | cbn; lia |].
  exists o. split; [exact Ho|].
  change (N.to_nat 2) with 2%nat in HP.
  split; rewrite HP by lia; f_equal; unfold dft_re, sample; cbn.
  - replace (2 * PI * (0 * (0 / (1 + 1)))) with 0 by field.
    replace (2 * PI * (0 * (1 / (1 + 1)))) with 0 by field.
    rewrite cos_0. ring.
  - replace (2 * PI * (1 * (0 / (1 + 1)))) with 0 by field.
    replace (2 * PI * (1 * (1 / (1 + 1)))) with PI by field.
    rewrite cos_0, cos_PI. ring.
Qed.

(** On two samples, the only power-of-two length at which the halves are
    single samples, [fft] and [dft] agree bin by bin. *)
Lemma fft_agrees_with_dft_on_two_samples (a b : R) (out : list R) :
  (2 ≤ length out)%nat →
  ∃ o_f o_d,
    fft [a; b] out 2 = Ok o_f ∧ dft [a; b] out 2 = Ok o_d
    ∧ ∀ k, (k < 2)%nat → o_f !! k = o_d !! k.
Proof.
  intros Hout.
  destruct (fft_window2 a b out Hout) as (o_f & Hf & F0 & F1).
  destruct (dft_window2 a b out Hout) as (o_d & Hd & D0 & D1).
  exists o_f, o_d. split; [exact Hf|]. split; [exact Hd|].
  intros [|[|k]] Hk; [congruence | congruence | lia].
Qed.

(** C1 at [n = 4] on the input [[1; 1; 1; 1]]: [dft] leaves [[4; 0; 0; 0]]
    in the output buffer, [fft] leaves [[2; 1; 0; 1]]; the two disagree in
    bins 0, 1 and 3. *)
Theorem fft_differs_from_dft_on_four_samples :
  ∃ o_f o_d,
    fft [1; 1; 1; 1] [0; 0; 0; 0] 4 = Ok o_f
    ∧ dft [1; 1; 1; 1] [0; 0; 0; 0] 4 = Ok o_d
    ∧ o_f !! 0%nat = Some 2 ∧ o_d !! 0%nat = Some 4
    ∧ o_f !! 1%nat = Some 1 ∧ o_d !! 1%nat = Some 0
    ∧ o_f !! 2%nat = Some 0 ∧ o_d !! 2%nat = Some 0
    ∧ o_f !! 3%nat = Some 1 ∧ o_d !! 3%nat = Some 0
    ∧ o_f !! 0%nat ≠ o_d !! 0%nat.
Proof.
  destruct (fft_window4 1 1 1 1 [0; 0; 0; 0])
    as (o_f & Hf & F0 & F1 & F2 & F3); [cbn; lia|].
  destruct (dft_constant 1 4%N [0; 0; 0; 0])
    as (o_d & Hd & D); [reflexivity | cbn; lia|].
  change (replicate (N.to_nat 4) 1) with [1; 1; 1; 1] in Hd.
  change (N.to_nat 4) with 4%nat in D.
  exists o_f, o_d. split; [exact Hf|]. split; [exact Hd|].
  assert (D0 : o_d !! 0%nat = Some 4).
  { rewrite D by lia. destruct (decide (0 = 0)%nat); [|lia].
    f_equal. cbn [INR]. lra. }
  assert (Dk : ∀ k, (1 ≤ k < 4)%nat → o_d !! k = Some 0).
  { intros k Hk. rewrite D by lia.
    destruct (decide (k = 0)%nat); [lia | reflexivity]. }
  rewrite F0, F1, F2, F3, D0, !Dk by lia.
  repeat split; try (f_equal; lra).
  intros [= H]. lra.
Qed.

(** ** The combine step the specification describes *)

Lemma unit_exp_0 : unit_exp 0 = Cplx.mk 1 0.
Proof.
  unfold unit_exp, Cplx.cexp. cbn [Cplx.re Cplx.im].
  replace (- (2 * PI * 0)) with 0 by ring.
  rewrite exp_0, cos_0, sin_0. f_equal; ring.
Qed.

(** Bin 0 of the complex DFT is the sum of the samples. *)
Lemma dft_bin_0 (x : list R) (n : nat) :
  dft_bin x n 0 = Cplx.mk (Rsum n (sample x)) 0.
Proof.
  unfold dft_bin. generalize (INR n) as d. intros d.
  induction n as [|n IH]; [reflexivity|].
  cbn [Csum Rsum]. rewrite IH.
  replace (INR 0 * INR n / d) with 0 by (cbn [INR]; unfold Rdiv; ring).
  rewrite unit_exp_0. unfold Cplx.add, Cplx.mul, Cplx.of_real.
  cbn [Cplx.re Cplx.im]. f_equal; ring.
Qed.

(** Bin 0 of the butterfly over the transformed halves is the sum of all
    the samples of the window. *)
Lemma spec_butterfly_lo_0 (x : list R) (w : nat) :
  spec_butterfly_lo x w 0
  = Rsum (w / 2) (sample (evens x w)) + Rsum (w / 2) (sample (odds x w)).
Proof.
  unfold spec_butterfly_lo. rewrite !dft_bin_0.
  replace (INR 0 / INR w) with 0 by (cbn [INR]; unfold Rdiv; ring).
  rewrite unit_exp_0. unfold Cplx.add, Cplx.mul.
  cbn [Cplx.re Cplx.im]. ring.
Qed.

(** C2 at [window = 4] on the input [[1; 0; 1; 0]]: the even-indexed half
    is [[1; 1]], whose transform has 2 in bin 0 (by [fft] itself and by the
    DFT sum alike), the odd-indexed half is [[0; 0]], whose transform has 0
    there, so the combine step of the specification puts [2 + 1*0 = 2] in
    [out[0]]; [fft] puts [in[0] + 1*in[1] = 1] there, the butterfly of the
    untransformed samples. *)
Theorem fft_combines_untransformed_halves :
  ∃ out' even_result odd_result,
    fft [1; 0; 1; 0] [0; 0; 0; 0] 4 = Ok out'
    ∧ out' !! 0%nat = Some 1
    ∧ out' !! 0%nat = Some (raw_butterfly_lo [1; 0; 1; 0] 4 0)
    ∧ spec_butterfly_lo [1; 0; 1; 0] 4 0 = 2
    ∧ fft (evens [1; 0; 1; 0] 4) [0; 0] 2 = Ok even_result
    ∧ fft (odds [1; 0; 1; 0] 4) [0; 0] 2 = Ok odd_result
    ∧ even_result !! 0%nat = Some 2
    ∧ odd_result !! 0%nat = Some 0
    ∧ out' !! 0%nat ≠ Some (spec_butterfly_lo [1; 0; 1; 0] 4 0).
Proof.
  destruct (fft_window4 1 0 1 0 [0; 0; 0; 0]) as (o & Ho & H0 & _);
    [cbn; lia|].
  destruct (fft_window2 1 1 [0; 0]) as (oe & Hoe & He0 & _); [cbn; lia|].
  destruct (fft_window2 0 0 [0; 0]) as (oo & Hoo & Ho0 & _); [cbn; lia|].
  assert (Hspec : spec_butterfly_lo [1; 0; 1; 0] 4 0 = 2).
  { rewrite spec_butterfly_lo_0. unfold sample. cbn. lra. }
  assert (Hraw : raw_butterfly_lo [1; 0; 1; 0] 4 0 = 1).
  { rewrite raw_butterfly_lo_eq. unfold sample. cbn. lra. }
  exists o, oe, oo. rewrite Hspec, Hraw, H0.
  change (evens [1; 0; 1; 0] 4) with [1; 1].
  change (odds [1; 0; 1; 0] 4) with [0; 0].
  rewrite He0, Ho0.
  repeat split; try assumption; try (f_equal; lra).
  intros [= H]. lra.
Qed.

(** * Beyond the claims: the oscillators of [minipiano.c] *)

(** X6: [sine_simple]: with a phase in [[0, 1)] and an increment
    [frequency / sample_rate] in [[0, 1]], the phase stays in [[0, 1)] (it
    advances by the increment, less 1 when it reaches 1), the sample lies
    within [amplitude] of zero, and the controls are left alone. *)
Theorem sine_simple_keeps_phase (sample_rate : R) (st : synth) :
  0 <= phase st < 1 →
  0 <= frequency st / sample_rate <= 1 →
  0 <= amplitude st →
  let r := sine_simple sample_rate st in
  0 <= phase r.2 < 1
  ∧ (phase r.2 = phase st + frequency st / sample_rate
     ∨ phase r.2 = phase st + frequency st / sample_rate - 1)
  ∧ - amplitude st <= r.1 <= amplitude st
  ∧ same_controls st r.2.
Proof.
  intros Hp Hd Ha. unfold sine_simple, same_controls. cbn.
  pose proof (SIN_bound (phase st * 2 * PI)) as Hs.
  destruct (Rge_dec _ 1); cbn; repeat split; try lra; try nra.
Qed.

Lemma sine_simple_keeps_phase_witness :
  let st := initial_synth in
  let r := sine_simple 44100 st in
  0 <= phase r.2 < 1
  ∧ (phase r.2 = phase st + frequency st / 44100
     ∨ phase r.2 = phase st + frequency st / 44100 - 1)
  ∧ - amplitude st <= r.1 <= amplitude st
  ∧ same_controls st r.2.
Proof.
  apply (sine_simple_keeps_phase 44100 initial_synth); simpl; lra.
Defined.



(** X8: [triangle]: with a phase in [[-1, 1]] and an increment
    [2 * frequency / sample_rate] in [[0, 1]], the phase moves by exactly
    the increment, up or down, and stays in [[-1, 1]]; the sample lies
    within [amplitude] of zero. *)
Theorem triangle_keeps_phase (sample_rate : R) (st : synth) :
  -1 <= phase st <= 1 →
  0 <= 2 * frequency st / sample_rate <= 1 →
  0 <= amplitude st →
  let r := triangle sample_rate st in
  -1 <= phase r.2 <= 1
  ∧ (phase r.2 = phase st + 2 * frequency st / sample_rate
     ∨ phase r.2 = phase st - 2 * frequency st / sample_rate)
  ∧ - amplitude st <= r.1 <= amplitude st
  ∧ same_controls st r.2.
Proof.
  intros Hp Hd Ha. unfold triangle, same_controls.
  destruct st as [ins c ph f a inc]. cbn in *.
  destruct inc; cbn.
  - destruct (Rgt_dec _ 1); cbn; repeat split; try lra; try nra.
  - destruct (Rlt_dec _ (-1)); cbn.
    + destruct (Rgt_dec _ 1); cbn; repeat split; try lra; try nra.
    + repeat split; try lra; try nra.
Qed.

Lemma triangle_keeps_phase_witness :
  let st := set_instrument TRIANGLE initial_synth in
  let r := triangle 44100 st in
  -1 <= phase r.2 <= 1
  ∧ (phase r.2 = phase st + 2 * frequency st / 44100
     ∨ phase r.2 = phase st - 2 * frequency st / 44100)
  ∧ - amplitude st <= r.1 <= amplitude st
  ∧ same_controls st r.2.
Proof.
  apply (triangle_keeps_phase 44100 (set_instrument TRIANGLE initial_synth));
    simpl; lra.
Defined.



(** * Beyond the claims: [frames_as_frequencies] and [data_callback] *)

(** A loop of [a + b] iterations is its first [a] iterations followed by
    the other [b]. *)
Lemma for_from_add {S : Type} (body : N → S → outcome S) (a b : nat) :
  ∀ (k0 : nat) (s : S),
    (N.of_nat (k0 + a) < UInt.modulus)%N →
    for_from (a + b) (N.of_nat k0) body s
    = for_from a (N.of_nat k0) body s
      ≫= for_from b (N.of_nat (k0 + a)) body.
Proof.
  induction a as [|a IH]; intros k0 s Hk.
  - cbn [for_from Nat.add]. rewrite bind_Ok. now rewrite Nat.add_0_r.
  - cbn [for_from Nat.add]. destruct (body (N.of_nat k0) s) as [s1| |];
      [|reflexivity|reflexivity].
    rewrite !bind_Ok. rewrite uint_succ_of_nat by lia.
    rewrite IH by lia. do 2 f_equal. lia.
Qed.

(** After [k] iterations the copy loop has replaced the first [k] elements
    of the output by those of the input. *)
Lemma copy_loop (x out : list R) (n : N) :
  (n < UInt.modulus)%N →
  (N.to_nat n ≤ length x)%nat →
  (N.to_nat n ≤ length out)%nat →
  for_upto n (copy_body x) out
  = Ok (take (N.to_nat n) x ++ drop (N.to_nat n) out).
Proof.
  intros Hn Hx Hout.
  destruct (for_upto_inv (fun k o => o = take k x ++ drop k out)
              (copy_body x) n out Hn) as (o & Ho & HP).
  - now rewrite take_0, drop_0.
  - intros k o Hk ->. unfold copy_body.
    destruct (lookup_lt_is_Some_2 x k) as [v Hv]; [lia|].
    destruct (lookup_lt_is_Some_2 out k) as [w Hw]; [lia|].
    rewrite (load_Some _ _ _ Hv), bind_Ok.
    rewrite store_in_range
      by (rewrite length_app, length_take, length_drop; lia).
    eexists. split; [reflexivity|].
    rewrite insert_app_r_alt by (rewrite length_take; lia).
    rewrite length_take, Nat.min_l, Nat.sub_diag by lia.
    rewrite (drop_S _ _ _ Hw), (take_S_r _ _ _ Hv), <- app_assoc.
    reflexivity.
  - now rewrite Ho, HP.
Qed.

(** The copy and its frame, element by element. *)
Lemma frames_as_frequencies_spec (x out : list R) (n : N) :
  (n < UInt.modulus)%N →
  (N.to_nat n ≤ length x)%nat →
  (N.to_nat n ≤ length out)%nat →
  ∃ out',
    frames_as_frequencies x out n = Ok out'
    ∧ length out' = length out
    ∧ (∀ i, (i < N.to_nat n)%nat → out' !! i = x !! i)
    ∧ (∀ j, (N.to_nat n ≤ j)%nat → out' !! j = out !! j).
Proof.
  intros Hn Hx Hout. eexists. split; [now apply copy_loop|].
  assert (Hlt : length (take (N.to_nat n) x) = N.to_nat n)
    by (rewrite length_take; lia).
  split; [|split].
  - rewrite length_app, Hlt, length_drop. lia.
  - intros i Hi. rewrite lookup_app_l by lia. now apply lookup_take_lt.
  - intros j Hj. rewrite lookup_app_r by lia.
    rewrite Hlt, lookup_drop. f_equal. lia.
Qed.

(** X1: [frames_as_frequencies]: with at least [n_frames] elements in both
    buffers, the call leaves the first [n_frames] input samples in the
    output buffer, in order, followed by the old output elements from
    index [n_frames] on; the length of the output buffer is kept. *)
Theorem frames_as_frequencies_copies (x out : list R) (n : N) :
  (n < UInt.modulus)%N →
  (N.to_nat n ≤ length x)%nat →
  (N.to_nat n ≤ length out)%nat →
  ∃ out',
    frames_as_frequencies x out n = Ok out'
    ∧ out' = take (N.to_nat n) x ++ drop (N.to_nat n) out
    ∧ length out' = length out
    ∧ (∀ i, (i < N.to_nat n)%nat → out' !! i = x !! i)
    ∧ (∀ j, (N.to_nat n ≤ j)%nat → out' !! j = out !! j).
Proof.
  intros Hn Hx Hout. eexists. split; [now apply copy_loop|].
  split; [reflexivity|].
  assert (Hlt : length (take (N.to_nat n) x) = N.to_nat n)
    by (rewrite length_take; lia).
  split; [|split].
  - rewrite length_app, Hlt, length_drop. lia.
  - intros i Hi. rewrite lookup_app_l by lia. now apply lookup_take_lt.
  - intros j Hj. rewrite lookup_app_r by lia.
    rewrite Hlt, lookup_drop. f_equal. lia.
Qed.

Lemma frames_as_frequencies_copies_witness :
  ∃ out',
    frames_as_frequencies [1; 2; 3] [9; 9; 9; 9] 2 = Ok out'
    ∧ out' = take (N.to_nat 2) [1; 2; 3] ++ drop (N.to_nat 2) [9; 9; 9; 9]
    ∧ length out' = length [9; 9; 9; 9]
    ∧ (∀ i, (i < N.to_nat 2)%nat → out' !! i = [1; 2; 3] !! i)
    ∧ (∀ j, (N.to_nat 2 ≤ j)%nat → out' !! j = [9; 9; 9; 9] !! j).
Proof.
  apply (frames_as_frequencies_copies [1; 2; 3] [9; 9; 9; 9] 2%N);
    [reflexivity | simpl; lia | simpl; lia].
Defined.

(** X2: [frames_as_frequencies] on a buffer too short: when the input or the
    output holds fewer than [n_frames] elements, the loop runs into an
    access out of range; it does not stop at the end of the shorter
    buffer. *)
Theorem frames_as_frequencies_overruns (x out : list R) (n : N) :
  (n < UInt.modulus)%N →
  (length x < N.to_nat n ∨ length out < N.to_nat n)%nat →
  frames_as_frequencies x out n = OutOfBounds.
Proof.
  intros Hn Hshort. unfold frames_as_frequencies, for_upto.
  set (m := Nat.min (length x) (length out)).
  replace (N.to_nat n) with (m + Datatypes.S (N.to_nat n - m - 1))%nat
    by lia.
  change 0%N with (N.of_nat 0).
  rewrite for_from_add by (unfold UInt.modulus in *; lia).
  pose proof (copy_loop x out (N.of_nat m)) as Hm.
  unfold for_upto in Hm. rewrite Nat2N.id in Hm.
  change (N.of_nat 0) with 0%N.
  rewrite Hm by (unfold UInt.modulus in *; lia).
  rewrite bind_Ok. cbn [for_from Nat.add].
  assert (Hb : copy_body x (N.of_nat m) (take m x ++ drop m out)
               = OutOfBounds).
  { unfold copy_body, load. rewrite Nat2N.id.
    destruct (x !! m) as [v|] eqn:Hv; [|reflexivity].
    rewrite bind_Ok. unfold store. rewrite Nat2N.id.
    destruct (decide _) as [Hlt|]; [|reflexivity].
    apply lookup_lt_Some in Hv.
    rewrite length_app, length_take, length_drop in Hlt. lia. }
  now rewrite Hb.
Qed.

Lemma frames_as_frequencies_overruns_witness :
  frames_as_frequencies [1; 2] [9; 9; 9; 9] 3 = OutOfBounds.
Proof.
  apply (frames_as_frequencies_overruns [1; 2] [9; 9; 9; 9] 3%N);
    [reflexivity | simpl; lia].
Defined.

Lemma oscillate_same_controls (sample_rate : R) (s : synth) :
  same_controls s (oscillate sample_rate s).2.
Proof.
  unfold oscillate, same_controls, sine_simple, tooth, triangle, saw.
  destruct s as [ins c ph f a inc]. cbn.
  destruct ins; cbn.
  - destruct (Rge_dec _ 1); now cbn.
  - destruct (Rge_dec _ 1); now cbn.
  - destruct inc; cbn.
    + destruct (Rgt_dec _ 1); now cbn.
    + destruct (Rlt_dec _ (-1)); cbn; [|easy].
      destruct (Rgt_dec _ 1); now cbn.
  - destruct (Rge_dec _ 1); now cbn.
Qed.

Lemma same_controls_trans (s1 s2 s3 : synth) :
  same_controls s1 s2 → same_controls s2 s3 → same_controls s1 s3.
Proof.
  unfold same_controls. intros (?&?&?&?) (?&?&?&?).
  repeat split; congruence.
Qed.

(** One sample of the selected oscillator: the phase keeps its range and
    the sample its bound. *)
Lemma oscillate_step (sample_rate : R) (s : synth) :
  phase_ok s → step_ok sample_rate s → 0 <= amplitude s →
  phase_ok (oscillate sample_rate s).2
  ∧ - peak s <= (oscillate sample_rate s).1 <= peak s.
Proof.
  unfold oscillate, phase_ok, step_ok, peak,
    sine_simple, tooth, triangle, saw.
  destruct s as [ins c ph f a inc]. cbn.
  destruct ins; cbn; intros Hp Hd Ha.
  - pose proof (SIN_bound (ph * 2 * PI)) as Hs.
    destruct (Rge_dec _ 1); cbn; repeat split; try lra; nra.
  - destruct (Rge_dec _ 1); cbn;
      (destruct (Rgt_dec _ 0); [destruct (Rlt_dec _ PI)|]);
      repeat split; lra.
  - destruct inc; cbn.
    + destruct (Rgt_dec _ 1); cbn; repeat split; try lra; nra.
    + destruct (Rlt_dec _ (-1)); cbn.
      * destruct (Rgt_dec _ 1); cbn; repeat split; try lra; nra.
      * repeat split; try lra; nra.
  - destruct (Rge_dec _ 1); cbn; repeat split; try lra; nra.
Qed.

(** The loop of [data_callback], for a property [I] of the state that
    every oscillator step keeps while it yields a sample in [B]. *)
Lemma callback_loop (I : synth → Prop) (B : R → Prop) (sample_rate : R)
    (frameCount : N) (st : synth) (output : list R) :
  (frameCount < UInt.modulus)%N →
  (N.to_nat frameCount ≤ length output)%nat →
  I st →
  (∀ s, I s → I (oscillate sample_rate s).2
              ∧ B (oscillate sample_rate s).1) →
  ∃ st' out',
    for_upto frameCount (callback_body sample_rate) (st, output)
    = Ok (st', out')
    ∧ I st'
    ∧ length out' = length output
    ∧ (∀ i, (i < N.to_nat frameCount)%nat →
         ∃ y, out' !! i = Some y ∧ B y)
    ∧ (∀ j, (N.to_nat frameCount ≤ j)%nat → out' !! j = output !! j).
Proof.
  intros Hn Hout HI Hstep.
  destruct (for_upto_inv
    (fun k (s : synth * list R) =>
       I s.1 ∧ length s.2 = length output
       ∧ (∀ i, (i < k)%nat → ∃ y, s.2 !! i = Some y ∧ B y)
       ∧ (∀ j, (k ≤ j)%nat → s.2 !! j = output !! j))
    (callback_body sample_rate) frameCount (st, output) Hn)
    as ([st' out'] & Hrun & HI' & Hlen & Hlo & Hhi).
  - cbn [fst snd]. split; [exact HI|]. split; [reflexivity|].
    split; [intros i Hi; lia | reflexivity].
  - intros k [s o] Hk (HIs & Hlen & Hlo & Hhi). cbn [fst snd] in *.
    unfold callback_body. cbn [fst snd].
    rewrite store_in_range, bind_Ok by lia.
    eexists. split; [reflexivity|]. cbn [fst snd].
    destruct (Hstep s HIs) as [HI2 HB].
    split; [exact HI2|]. split; [now rewrite length_insert|]. split.
    + intros i Hi. destruct (decide (i = k)) as [->|Hik].
      * eexists. split; [apply list_lookup_insert_eq; lia | exact HB].
      * rewrite list_lookup_insert_ne by congruence. apply Hlo. lia.
    + intros j Hj. rewrite list_lookup_insert_ne by lia. apply Hhi. lia.
  - exists st', out'. cbn [fst snd] in *. repeat split; assumption.
Qed.

Lemma MIN_to_nat (x y : N) :
  N.to_nat (MIN x y) = Nat.min (N.to_nat x) (N.to_nat y).
Proof. unfold MIN. destruct (N.ltb_spec x y); lia. Qed.

(** X10: [data_callback] is memory safe and hands the first
    [MIN(frameCount, FRAME_COUNT_MAX)] samples it produced to [frames]:
    whatever the state of the synthesiser, with [frameCount] slots in the
    output buffer and [FRAME_COUNT_MAX] in [frames] no access is out of
    range; [frames] keeps its length, receives those samples in order and
    keeps its other elements; the output buffer is untouched from index
    [frameCount] on; and the controls are left alone. *)
Theorem data_callback_fills_frames (sampleRate frameCount : N)
    (output frames : list R) (st : synth) :
  (frameCount < UInt.modulus)%N →
  (N.to_nat frameCount ≤ length output)%nat →
  (N.to_nat FRAME_COUNT_MAX ≤ length frames)%nat →
  ∃ st' out' frames',
    data_callback sampleRate frameCount output frames st
    = Ok (st', out', frames')
    ∧ same_controls st st'
    ∧ length out' = length output
    ∧ (∀ j, (N.to_nat frameCount ≤ j)%nat → out' !! j = output !! j)
    ∧ length frames' = length frames
    ∧ (∀ i, (i < Nat.min (N.to_nat frameCount) 128)%nat →
         frames' !! i = out' !! i)
    ∧ (∀ j, (Nat.min (N.to_nat frameCount) 128 ≤ j)%nat →
         frames' !! j = frames !! j).
Proof.
  intros Hn Hout Hfr. unfold data_callback. cbv zeta.
  destruct (callback_loop (same_controls st) (fun _ => True)
              (UInt.to_float sampleRate) frameCount st output Hn Hout)
    as (st' & out' & -> & Hsc & Hlen & _ & Hhi).
  { unfold same_controls. now repeat split. }
  { intros s Hs. split; [|exact Logic.I].
    eapply same_controls_trans; [exact Hs|].
    apply oscillate_same_controls. }
  rewrite bind_Ok. cbn [fst snd].
  assert (Hm : N.to_nat (MIN frameCount FRAME_COUNT_MAX)
               = Nat.min (N.to_nat frameCount) 128)
    by (rewrite MIN_to_nat; reflexivity).
  change (N.to_nat FRAME_COUNT_MAX) with 128%nat in Hfr.
  destruct (frames_as_frequencies_spec out' frames
              (MIN frameCount FRAME_COUNT_MAX))
    as (fr & -> & Hfl & Hflo & Hfhi).
  { unfold MIN, UInt.modulus in *.
    destruct (frameCount <? FRAME_COUNT_MAX)%N; [lia | reflexivity]. }
  { lia. }
  { lia. }
  rewrite bind_Ok. exists st', out', fr. rewrite Hm in *.
  split; [reflexivity|]. split; [exact Hsc|]. repeat split; assumption.
Qed.

Lemma data_callback_fills_frames_witness :
  ∃ st' out' frames',
    data_callback 44100 2 [5; 5; 5] (replicate 128 7) initial_synth
    = Ok (st', out', frames')
    ∧ same_controls initial_synth st'
    ∧ length out' = length [5; 5; 5]
    ∧ (∀ j, (N.to_nat 2 ≤ j)%nat → out' !! j = [5; 5; 5] !! j)
    ∧ length frames' = length (replicate 128 7)
    ∧ (∀ i, (i < Nat.min (N.to_nat 2) 128)%nat → frames' !! i = out' !! i)
    ∧ (∀ j, (Nat.min (N.to_nat 2) 128 ≤ j)%nat →
         frames' !! j = replicate 128 7 !! j).
Proof.
  apply (data_callback_fills_frames 44100 2 [5; 5; 5] (replicate 128 7)
           initial_synth);
    [reflexivity | simpl; lia | vm_compute; lia].
Defined.

(** X11: [data_callback] keeps the oscillator in range: when the phase is in
    the range of the selected instrument, the phase increment is within its
    limit (for the triangle, [frequency <= sample_rate / 2]) and the
    amplitude is not negative, then the phase is in range again after the
    call, and every sample written to the output buffer, and so every
    sample handed to [frames], lies within [amplitude] of zero
    ([2 * amplitude] for the saw). *)
Theorem data_callback_samples_bounded (sampleRate frameCount : N)
    (output frames : list R) (st : synth) :
  (frameCount < UInt.modulus)%N →
  (N.to_nat frameCount ≤ length output)%nat →
  (N.to_nat FRAME_COUNT_MAX ≤ length frames)%nat →
  phase_ok st →
  step_ok (UInt.to_float sampleRate) st →
  0 <= amplitude st →
  ∃ st' out' frames',
    data_callback sampleRate frameCount output frames st
    = Ok (st', out', frames')
    ∧ phase_ok st'
    ∧ same_controls st st'
    ∧ (∀ i, (i < N.to_nat frameCount)%nat →
         ∃ y, out' !! i = Some y ∧ - peak st <= y <= peak st)
    ∧ (∀ i, (i < Nat.min (N.to_nat frameCount) 128)%nat →
         ∃ y, frames' !! i = Some y ∧ - peak st <= y <= peak st).
Proof.
  intros Hn Hout Hfr Hp Hd Ha. unfold data_callback. cbv zeta.
  destruct (callback_loop
              (fun s => phase_ok s ∧ same_controls st s)
              (fun y => - peak st <= y <= peak st)
              (UInt.to_float sampleRate) frameCount st output Hn Hout)
    as (st' & out' & -> & [Hp' Hsc] & Hlen & Hlo & _).
  { split; [exact Hp|]. unfold same_controls. now repeat split. }
  { intros s [Hps Hs].
    assert (Hsame : step_ok (UInt.to_float sampleRate) s
                    ∧ amplitude s = amplitude st ∧ peak s = peak st).
    { destruct Hs as (Hi & _ & Hf & Hamp).
      unfold step_ok, peak. now rewrite Hi, Hf, Hamp. }
    destruct Hsame as (Hds & Hamp & Hpk).
    destruct (oscillate_step (UInt.to_float sampleRate) s Hps Hds)
      as [Hp2 Hb]; [lra|].
    rewrite Hpk in Hb. split; [split; [exact Hp2|] | exact Hb].
    eapply same_controls_trans; [exact Hs|].
    apply oscillate_same_controls. }
  rewrite bind_Ok. cbn [fst snd].
  assert (Hm : N.to_nat (MIN frameCount FRAME_COUNT_MAX)
               = Nat.min (N.to_nat frameCount) 128)
    by (rewrite MIN_to_nat; reflexivity).
  change (N.to_nat FRAME_COUNT_MAX) with 128%nat in Hfr.
  destruct (frames_as_frequencies_spec out' frames
              (MIN frameCount FRAME_COUNT_MAX))
    as (fr & -> & _ & Hflo & _).
  { unfold MIN, UInt.modulus in *.
    destruct (frameCount <? FRAME_COUNT_MAX)%N; [lia | reflexivity]. }
  { lia. }
  { lia. }
  rewrite bind_Ok. exists st', out', fr. rewrite Hm in *.
  split; [reflexivity|]. split; [exact Hp'|]. split; [exact Hsc|].
  split; [exact Hlo|].
  intros i Hi. rewrite Hflo by exact Hi. apply Hlo. lia.
Qed.

Lemma data_callback_samples_bounded_witness :
  ∃ st' out' frames',
    data_callback 44100 2 [5; 5; 5] (replicate 128 7) initial_synth
    = Ok (st', out', frames')
    ∧ phase_ok st'
    ∧ same_controls initial_synth st'
    ∧ (∀ i, (i < N.to_nat 2)%nat →
         ∃ y, out' !! i = Some y
              ∧ - peak initial_synth <= y <= peak initial_synth)
    ∧ (∀ i, (i < Nat.min (N.to_nat 2) 128)%nat →
         ∃ y, frames' !! i = Some y
              ∧ - peak initial_synth <= y <= peak initial_synth).
Proof.
  apply (data_callback_samples_bounded 44100 2 [5; 5; 5] (replicate 128 7)
           initial_synth);
    [reflexivity | simpl; lia | vm_compute; lia
    | unfold phase_ok; simpl; lra
    | unfold step_ok, UInt.to_float; simpl; lra
    | simpl; lra].
Defined.

(** * Beyond the claims: the keys of [main] *)

Lemma semitone_pos (x : R) : 0 < Rpower 2 x.
Proof. unfold Rpower. apply exp_pos. Qed.

Lemma semitone_range (x : R) : 0 <= x <= 1 → 1 <= Rpower 2 x <= 2.
Proof.
  intros [H0 H1].
  pose proof (Rle_Rpower 2 0 x ltac:(lra) H0) as Hlo.
  pose proof (Rle_Rpower 2 x 1 ltac:(lra) H1) as Hhi.
  rewrite Rpower_O in Hlo by lra. rewrite Rpower_1 in Hhi by lra.
  now split.
Qed.


(** One key keeps the state tuned. *)
Lemma key_down_tuned (key : N) (st st' : synth) :
  tuned st → key_down key st = Some st' → tuned st'.
Proof.
  intros Ht H.
  pose proof (semitone_pos (1 / 12)) as Hr.
  pose proof (semitone_range (1 / 12) ltac:(lra)) as H1.
  pose proof (semitone_range (2 / 12) ltac:(lra)) as H2.
  pose proof (semitone_range (3 / 12) ltac:(lra)) as H3.
  pose proof (semitone_range (4 / 12) ltac:(lra)) as H4.
  pose proof (semitone_range (5 / 12) ltac:(lra)) as H5.
  pose proof (semitone_range (6 / 12) ltac:(lra)) as H6.
  pose proof (semitone_range (7 / 12) ltac:(lra)) as H7.
  pose proof (semitone_range (8 / 12) ltac:(lra)) as H8.
  pose proof (semitone_range (9 / 12) ltac:(lra)) as H9.
  pose proof (semitone_range (10 / 12) ltac:(lra)) as H10.
  pose proof (semitone_range (11 / 12) ltac:(lra)) as H11.
  pose proof (semitone_range (12 / 12) ltac:(lra)) as H12.
  assert (Hq : 0 < / Rpower 2 (1 / 12)) by now apply Rinv_0_lt_compat.
  unfold key_down in H.
  destruct key as [|p]; [injection H as <-; exact Ht|].
  do 8 (try destruct p as [p|p|]);
    cbv beta iota zeta in H;
    first
      [ discriminate H
      | injection H as <-; exact Ht
      | injection H as <-; destruct st as [ins c ph f a inc];
        unfold tuned, set_frequency, set_c_frequency, set_instrument,
          set_amplitude, Rdiv in *;
        cbn [c_frequency frequency amplitude instrument phase increasing]
          in *;
        try (destruct (Rlt_dec _ 0));
        cbn [c_frequency frequency amplitude instrument phase increasing];
        repeat split; try lra; nra ].
Qed.

(** X12: Over any sequence of key presses the state stays tuned: the base
    frequency stays positive, the played frequency stays between the base
    frequency and its octave, and the amplitude never becomes negative.
    The state in which [main] starts is tuned. *)
Theorem keys_keep_tuned (keys : list N) (st : synth) :
  tuned st →
  (∀ st', key_downs keys st = Some st' → tuned st')
  ∧ tuned initial_synth.
Proof.
  intros Ht. split.
  - revert st Ht. induction keys as [|key keys IH]; intros st Ht st' H.
    + injection H as <-. exact Ht.
    + cbn [key_downs] in H.
      destruct (key_down key st) as [st1|] eqn:Hk; [|discriminate].
      eapply IH; [|exact H]. eapply key_down_tuned; eassumption.
  - unfold tuned, initial_synth. cbn. lra.
Qed.

Lemma keys_keep_tuned_witness :
  (∀ st', key_downs [122; 107; 112; 52]%N initial_synth = Some st' →
          tuned st')
  ∧ tuned initial_synth.
Proof.
  apply (keys_keep_tuned [122; 107; 112; 52]%N initial_synth).
  unfold tuned; simpl; lra.
Defined.

(** X13: Raising the base frequency by a half tone and lowering it again, in
    either order, leaves the base frequency where it was and plays it:
    ['z'] then ['x'], and ['x'] then ['z'], have the effect of ['a']. *)
Theorem half_tone_up_and_down (st : synth) :
  key_downs [122; 120]%N st = key_down 97 st
  ∧ key_downs [120; 122]%N st = key_down 97 st
  ∧ key_down 97 st = Some (set_frequency (c_frequency st) st).
Proof.
  pose proof (semitone_pos (1 / 12)) as Hr.
  destruct st as [ins c ph f a inc].
  cbn [key_downs key_down]. unfold set_frequency, set_c_frequency. cbn.
  repeat split; do 2 f_equal; field; lra.
Qed.




(** X15: The piano keys are equally tempered: the [i]-th of the thirteen keys
    [a w s e d f t g y h u j k] plays the base frequency times
    [2^(i/12)] and changes nothing else, so each key sounds a factor
    [2^(1/12)] above the key before it and the last one sounds exactly one
    octave above the first. *)
Theorem piano_keys_equal_temperament (st : synth) (i : nat) (key : N) :
  piano_keys !! i = Some key →
  key_down key st
  = Some (set_frequency (c_frequency st * Rpower 2 (INR i / 12)) st)
  ∧ Rpower 2 (INR (Datatypes.S i) / 12)
    = Rpower 2 (INR i / 12) * Rpower 2 (1 / 12)
  ∧ key_down 107 st = Some (set_frequency (2 * c_frequency st) st).
Proof.
  intros Hk. split; [|split].
  - pose proof (lookup_lt_Some _ _ _ Hk) as Hi.
    unfold piano_keys in Hk, Hi. cbn [length] in Hi.
    destruct i as [|[|[|[|[|[|[|[|[|[|[|[|[|i]]]]]]]]]]]]]; [..|lia];
      injection Hk as <-; cbn [key_down];
      rewrite INR_IZR_INZ; cbn [Z.of_nat Pos.of_succ_nat Pos.succ];
      [|reflexivity ..].
    change (IZR (Z.of_nat 0)) with 0. replace (0 / 12) with 0 by lra.
    rewrite Rpower_O by lra. now rewrite Rmult_1_r.
  - rewrite S_INR, <- Rpower_plus. f_equal. lra.
  - cbn [key_down]. do 2 f_equal.
    replace (12 / 12) with 1 by lra. rewrite Rpower_1 by lra. ring.
Qed.

Lemma piano_keys_equal_temperament_witness :
  key_down 100 initial_synth
  = Some (set_frequency
            (c_frequency initial_synth * Rpower 2 (INR 4 / 12))
            initial_synth)
  ∧ Rpower 2 (INR 5 / 12) = Rpower 2 (INR 4 / 12) * Rpower 2 (1 / 12)
  ∧ key_down 107 initial_synth
    = Some (set_frequency (2 * c_frequency initial_synth) initial_synth).
Proof.
  apply (piano_keys_equal_temperament initial_synth 4 100%N). reflexivity.
Defined.


(** * Beyond the claims: the bars of the spectrum *)






(** The render loop hands to [SDL_RenderFillRect] the rectangles of
    [bars_of], in that order. *)
Lemma render_loop (freqs : list R) :
  (64 ≤ length freqs)%nat →
  render_spectrum freqs = Ok (bars_of freqs 64).
Proof.
  intros Hlen. unfold render_spectrum.
  destruct (for_upto_inv (fun k drawn => drawn = bars_of freqs k)
              (render_body freqs) (UInt.div FRAME_COUNT_MAX 2) [])
    as (drawn & Hrun & HP).
  - reflexivity.
  - reflexivity.
  - intros k drawn Hk ->. change (N.to_nat _) with 64%nat in Hk.
    unfold render_body. rewrite !load_sample, bind_Ok by lia.
    assert (Hnext : bars_of freqs (Datatypes.S k)
                    = bars_of freqs k
                      ++ (if Rle_dec (sample freqs k) 0 then []
                          else [bar_rect (N.of_nat k) (sample freqs k);
                                mirror (bar_rect (N.of_nat k)
                                          (sample freqs k))])).
    { unfold bars_of. now rewrite seq_S, bind_app, bind_singleton. }
    rewrite Hnext. destruct (Rle_dec (sample freqs k) 0).
    + eexists. split; [reflexivity|]. now rewrite app_nil_r.
    + rewrite bind_Ok. eexists. split; reflexivity.
  - now rewrite Hrun, HP.
Qed.

Lemma bars_of_elem (freqs : list R) (k : nat) (r : SDL_FRect) :
  r ∈ bars_of freqs k ↔
  ∃ i, (i < k)%nat ∧ 0 < sample freqs i
       ∧ (r = bar_rect (N.of_nat i) (sample freqs i)
          ∨ r = mirror (bar_rect (N.of_nat i) (sample freqs i))).
Proof.
  unfold bars_of. rewrite list_elem_of_bind. split.
  - intros (i & Hr & Hi). apply elem_of_seq in Hi.
    destruct (Rle_dec (sample freqs i) 0); [now apply elem_of_nil in Hr|].
    exists i. split; [lia|]. split; [lra|].
    apply elem_of_cons in Hr as [->|Hr]; [now left|].
    apply list_elem_of_singleton in Hr as ->. now right.
  - intros (i & Hi & Hpos & Hr). exists i. split; [|apply elem_of_seq; lia].
    destruct (Rle_dec (sample freqs i) 0); [lra|].
    destruct Hr as [->| ->]; [left|right; left].
Qed.

(** X18: [main]'s render loop draws a bar for exactly the positive bins of the
    lower half of the spectrum: with at least 64 bins in [frequencies], a
    rectangle is handed to [SDL_RenderFillRect] if and only if it is the
    bar of a bin [i < 64] whose value is positive, or the mirror image of
    that bar; every bar drawn has a positive height and its mirror image
    the opposite one; bins from 64 on are never read. *)
Theorem render_spectrum_draws_positive_bins (freqs : list R) :
  (64 ≤ length freqs)%nat →
  ∃ drawn,
    render_spectrum freqs = Ok drawn
    ∧ render_spectrum (take 64 freqs) = Ok drawn
    ∧ (∀ r, r ∈ drawn ↔
         ∃ i, (i < 64)%nat ∧ 0 < sample freqs i
              ∧ (r = bar_rect (N.of_nat i) (sample freqs i)
                 ∨ r = mirror (bar_rect (N.of_nat i) (sample freqs i))))
    ∧ (∀ i, (i < 64)%nat → 0 < sample freqs i →
         0 < rect_h (bar_rect (N.of_nat i) (sample freqs i))
         ∧ rect_h (mirror (bar_rect (N.of_nat i) (sample freqs i)))
           = - rect_h (bar_rect (N.of_nat i) (sample freqs i))).
Proof.
  intros Hlen. exists (bars_of freqs 64).
  split; [now apply render_loop|]. split; [|split].
  - rewrite render_loop by (rewrite length_take; lia). f_equal.
    unfold bars_of. apply Forall_bind_ext, Forall_forall. intros i Hi.
    apply elem_of_seq in Hi. now rewrite sample_take by lia.
  - intros r. apply bars_of_elem.
  - intros i Hi Hpos. unfold mirror, bar_rect.
    cbn [rect_x rect_y rect_w rect_h].
    unfold WINDOW_HEIGHT, FREQUENCY_SCALING, UInt.to_float. simpl.
    split; lra.
Qed.

Lemma render_spectrum_draws_positive_bins_witness :
  ∃ drawn,
    render_spectrum (replicate 64 1) = Ok drawn
    ∧ render_spectrum (take 64 (replicate 64 1)) = Ok drawn
    ∧ (∀ r, r ∈ drawn ↔
         ∃ i, (i < 64)%nat ∧ 0 < sample (replicate 64 1) i
              ∧ (r = bar_rect (N.of_nat i) (sample (replicate 64 1) i)
                 ∨ r = mirror (bar_rect (N.of_nat i)
                                 (sample (replicate 64 1) i))))
    ∧ (∀ i, (i < 64)%nat → 0 < sample (replicate 64 1) i →
         0 < rect_h (bar_rect (N.of_nat i) (sample (replicate 64 1) i))
         ∧ rect_h (mirror (bar_rect (N.of_nat i)
                             (sample (replicate 64 1) i)))
           = - rect_h (bar_rect (N.of_nat i)
                         (sample (replicate 64 1) i))).
Proof.
  apply (render_spectrum_draws_positive_bins (replicate 64 1)).
  vm_compute; lia.
Defined.

Lemma bars_of_ext (a b : list R) (k : nat) :
  (∀ i, (i < k)%nat → sample a i = sample b i) →
  bars_of a k = bars_of b k.
Proof.
  intros H. unfold bars_of. apply Forall_bind_ext, Forall_forall.
  intros i Hi. apply elem_of_seq in Hi. now rewrite H by lia.
Qed.

(** X19: One rendered frame of [main]: with [FRAME_COUNT_MAX] elements in
    [frames] and in [frequencies], [fft] followed by the render loop
    completes without an access out of range, and the bars drawn are those
    of the raw butterflies [frames[2i] + cos(2 pi i / 128) * frames[2i+1]]
    of the bins [i < 64] that are positive; what [frequencies] held before
    the frame has no influence on the picture. *)
Theorem render_frame_shows_raw_butterflies (frames freqs freqs2 : list R) :
  (128 ≤ length frames)%nat →
  (128 ≤ length freqs)%nat →
  (128 ≤ length freqs2)%nat →
  ∃ freqs' freqs2' drawn,
    render_frame frames freqs = Ok (freqs', drawn)
    ∧ render_frame frames freqs2 = Ok (freqs2', drawn)
    ∧ length freqs' = length freqs
    ∧ ∀ r, r ∈ drawn ↔
        ∃ i, (i < 64)%nat
             ∧ 0 < raw_butterfly_lo frames 128 i
             ∧ (r = bar_rect (N.of_nat i) (raw_butterfly_lo frames 128 i)
                ∨ r = mirror (bar_rect (N.of_nat i)
                                (raw_butterfly_lo frames 128 i))).
Proof.
  intros Hfr Hf1 Hf2. unfold render_frame.
  change FRAME_COUNT_MAX with 128%N.
  assert (Hw : (128 < UInt.modulus)%N) by reflexivity.
  assert (Heff : ∀ out, (128 ≤ length out)%nat →
            ∃ out', fft frames out 128 = Ok out'
              ∧ length out' = length out
              ∧ ∀ i, (i < 64)%nat →
                  sample out' i = raw_butterfly_lo frames 128 i).
  { intros out Hout.
    destruct (butterfly_stage_spec frames out 128%N Hw) as (o & Ho & Hl & HP);
      [exact Hfr | exact Hout |].
    exists o. split; [|split; [exact Hl|]].
    - rewrite fft_effect_eq by assumption. exact Ho.
    - intros i Hi. unfold sample at 1. rewrite HP.
      change (N.to_nat 128 / 2)%nat with 64%nat.
      destruct (decide (i < 64)%nat); [reflexivity | lia]. }
  destruct (Heff freqs Hf1) as (o1 & -> & Hl1 & HP1).
  destruct (Heff freqs2 Hf2) as (o2 & -> & Hl2 & HP2).
  rewrite !bind_Ok, !render_loop, !bind_Ok by lia.
  exists o1, o2, (bars_of o1 64).
  split; [reflexivity|]. split; [|split; [exact Hl1|]].
  - do 2 f_equal. apply bars_of_ext. intros i Hi.
    now rewrite HP1, HP2.
  - intros r. rewrite bars_of_elem. split.
    + intros (i & Hi & Hpos & Hr). exists i. rewrite <- HP1 by exact Hi.
      now repeat split.
    + intros (i & Hi & Hpos & Hr). exists i. rewrite HP1 by exact Hi.
      now repeat split.
Qed.

Lemma render_frame_shows_raw_butterflies_witness :
  ∃ freqs' freqs2' drawn,
    render_frame (replicate 128 1) (replicate 128 0)
    = Ok (freqs', drawn)
    ∧ render_frame (replicate 128 1) (replicate 128 5)
      = Ok (freqs2', drawn)
    ∧ length freqs' = length (replicate 128 0)
    ∧ ∀ r, r ∈ drawn ↔
        ∃ i, (i < 64)%nat
             ∧ 0 < raw_butterfly_lo (replicate 128 1) 128 i
             ∧ (r = bar_rect (N.of_nat i)
                      (raw_butterfly_lo (replicate 128 1) 128 i)
                ∨ r = mirror (bar_rect (N.of_nat i)
                                (raw_butterfly_lo (replicate 128 1) 128 i))).
Proof.
  apply (render_frame_shows_raw_butterflies
           (replicate 128 1) (replicate 128 0) (replicate 128 5));
    vm_compute; lia.
Defined.

(** * Beyond the claims: more about [dft] and [fft] *)

Lemma dft_re_0 (x : list R) (n : nat) : dft_re x n 0 = Rsum n (sample x).
Proof.
  unfold dft_re. apply Rsum_ext. intros t _. cbn [INR].
  replace (2 * PI * (0 * (INR t / INR n))) with 0 by ring.
  rewrite cos_0. ring.
Qed.

Lemma dft_re_mirror (x : list R) (n k : nat) :
  (0 < k < n)%nat → dft_re x n (n - k) = dft_re x n k.
Proof.
  intros Hk. unfold dft_re. apply Rsum_ext. intros t _. f_equal.
  assert (Hn : INR n <> 0) by (apply not_0_INR; lia).
  rewrite minus_INR by lia.
  replace (2 * PI * ((INR n - INR k) * (INR t / INR n)))
    with (- (2 * PI * (INR k * (INR t / INR n))) + 2 * INR t * PI)
    by (field; exact Hn).
  now rewrite cos_period, cos_neg.
Qed.

(** X3: The spectrum [dft] computes for a real input has the sum of the
    samples in bin 0 and is mirrored about its middle: bin [n - k] holds
    the same value as bin [k], for every [0 < k < n]. *)
Theorem dft_spectrum_is_mirrored (x out : list R) (n : N) :
  (0 < n)%N →
  (n < UInt.modulus)%N →
  (N.to_nat n ≤ length x)%nat →
  (N.to_nat n ≤ length out)%nat →
  ∃ out',
    dft x out n = Ok out'
    ∧ out' !! 0%nat = Some (Rsum (N.to_nat n) (sample x))
    ∧ ∀ k, (0 < k < N.to_nat n)%nat →
        out' !! (N.to_nat n - k)%nat = out' !! k.
Proof.
  intros H0 Hn Hx Hout.
  destruct (dft_outer_loop x out n Hn Hx Hout) as (o & Ho & _ & HP & _).
  exists o. split; [exact Ho|]. split.
  - rewrite HP by lia. now rewrite dft_re_0.
  - intros k Hk. rewrite !HP by lia. now rewrite dft_re_mirror.
Qed.

Lemma dft_spectrum_is_mirrored_witness :
  ∃ out',
    dft [1; 2; 3; 4; 5] [0; 0; 0; 0; 0] 5 = Ok out'
    ∧ out' !! 0%nat = Some (Rsum (N.to_nat 5) (sample [1; 2; 3; 4; 5]))
    ∧ ∀ k, (0 < k < N.to_nat 5)%nat →
        out' !! (N.to_nat 5 - k)%nat = out' !! k.
Proof.
  apply (dft_spectrum_is_mirrored [1; 2; 3; 4; 5] [0; 0; 0; 0; 0] 5%N);
    [lia | reflexivity | simpl; lia | simpl; lia].
Defined.

(** X4: Both transforms overwrite their bins: the values [dft] leaves in the
    bins below [n], and the values [fft] leaves in the bins below
    [2 * (n / 2)] when [n >= 2], do not depend on what the output buffer
    held before the call. *)
Theorem transforms_overwrite_their_bins (x out1 out2 : list R) (n : N) :
  (n < UInt.modulus)%N →
  (N.to_nat n ≤ length x)%nat →
  (N.to_nat n ≤ length out1)%nat →
  (N.to_nat n ≤ length out2)%nat →
  (∃ o1 o2,
      dft x out1 n = Ok o1 ∧ dft x out2 n = Ok o2
      ∧ ∀ k, (k < N.to_nat n)%nat → o1 !! k = o2 !! k)
  ∧ ((2 <= n)%N →
     ∃ o1 o2,
       fft x out1 n = Ok o1 ∧ fft x out2 n = Ok o2
       ∧ ∀ k, (k < 2 * (N.to_nat n / 2))%nat → o1 !! k = o2 !! k).
Proof.
  intros Hn Hx H1 H2. split.
  - destruct (dft_outer_loop x out1 n Hn Hx H1) as (o1 & Ho1 & _ & P1 & _).
    destruct (dft_outer_loop x out2 n Hn Hx H2) as (o2 & Ho2 & _ & P2 & _).
    exists o1, o2. repeat split; try assumption.
    intros k Hk. now rewrite P1, P2.
  - intros Hge. rewrite !fft_effect_eq by assumption. unfold fft_effect.
    rewrite (proj2 (N.leb_gt n 1)) by lia.
    destruct (butterfly_stage_spec x out1 n Hn Hx H1) as (o1 & -> & _ & P1).
    destruct (butterfly_stage_spec x out2 n Hn Hx H2) as (o2 & -> & _ & P2).
    exists o1, o2. repeat split.
    intros k Hk. rewrite P1, P2.
    destruct (decide (k < N.to_nat n / 2)%nat); [reflexivity|].
    destruct (decide (k < 2 * (N.to_nat n / 2))%nat); [reflexivity | lia].
Qed.

Lemma transforms_overwrite_their_bins_witness :
  (∃ o1 o2,
      dft [1; 2; 3; 4] [0; 0; 0; 0] 4 = Ok o1
      ∧ dft [1; 2; 3; 4] [9; 8; 7; 6] 4 = Ok o2
      ∧ ∀ k, (k < N.to_nat 4)%nat → o1 !! k = o2 !! k)
  ∧ (∃ o1 o2,
       fft [1; 2; 3; 4] [0; 0; 0; 0] 4 = Ok o1
       ∧ fft [1; 2; 3; 4] [9; 8; 7; 6] 4 = Ok o2
       ∧ ∀ k, (k < 2 * (N.to_nat 4 / 2))%nat → o1 !! k = o2 !! k).
Proof.
  destruct (transforms_overwrite_their_bins
              [1; 2; 3; 4] [0; 0; 0; 0] [9; 8; 7; 6] 4%N)
    as [Hd Hf]; [reflexivity | simpl; lia ..|].
  split; [exact Hd | apply Hf; lia].
Defined.

(** X5: The output of [fft] gives the even samples back: for [window >= 2]
    and every [i < window / 2], the bins [i] and [i + window / 2] add up
    to twice [in[2i]] and differ by twice
    [cos(2 pi i / window) * in[2i+1]]; bin 0 is [in[0] + in[1]] and bin
    [window / 2] is [in[0] - in[1]]. *)
Theorem fft_bins_pair_up (x out : list R) (window : N) :
  (2 <= window)%N →
  (window < UInt.modulus)%N →
  (N.to_nat window ≤ length x)%nat →
  (N.to_nat window ≤ length out)%nat →
  ∃ out',
    fft x out window = Ok out'
    ∧ (∀ i, (i < N.to_nat window / 2)%nat →
         sample out' i + sample out' (i + N.to_nat window / 2)
         = 2 * sample x (2 * i)
         ∧ sample out' i - sample out' (i + N.to_nat window / 2)
           = 2 * (cos (2 * PI * (INR i / INR (N.to_nat window)))
                  * sample x (2 * i + 1)))
    ∧ sample out' 0 = sample x 0 + sample x 1
    ∧ sample out' (N.to_nat window / 2) = sample x 0 - sample x 1.
Proof.
  intros H2 Hw Hx Hout. set (w := N.to_nat window). set (h := (w / 2)%nat).
  destruct (butterfly_stage_spec x out window Hw Hx Hout)
    as (o & Ho & _ & HP).
  fold w h in HP.
  assert (Hlo : ∀ i, (i < h)%nat → sample o i = raw_butterfly_lo x w i).
  { intros i Hi. unfold sample at 1. rewrite HP.
    destruct (decide (i < h)%nat); [reflexivity | lia]. }
  assert (Hhi : ∀ i, (i < h)%nat →
                     sample o (i + h) = raw_butterfly_hi x w i).
  { intros i Hi. unfold sample at 1. rewrite HP.
    destruct (decide (i + h < h)%nat); [lia|].
    destruct (decide (i + h < 2 * h)%nat); [|lia].
    replace (i + h - h)%nat with i by lia. reflexivity. }
  assert (Hh : (0 < h)%nat) by (subst h w; lia).
  assert (Hc0 : cos (2 * PI * (INR 0 / INR w)) = 1).
  { replace (2 * PI * (INR 0 / INR w)) with 0
      by (cbn [INR]; unfold Rdiv; ring).
    apply cos_0. }
  exists o. split; [|split; [|split]].
  - rewrite fft_effect_eq by assumption. unfold fft_effect.
    now rewrite (proj2 (N.leb_gt window 1)) by lia.
  - intros i Hi. rewrite Hlo, Hhi by exact Hi.
    rewrite raw_butterfly_lo_eq, raw_butterfly_hi_eq. split; ring.
  - rewrite Hlo by exact Hh. rewrite raw_butterfly_lo_eq, Hc0.
    cbn [Nat.mul Nat.add]. ring.
  - pose proof (Hhi 0%nat Hh) as Hh0. cbn [Nat.add] in Hh0.
    rewrite Hh0, raw_butterfly_hi_eq, Hc0.
    cbn [Nat.mul Nat.add]. ring.
Qed.

Lemma fft_bins_pair_up_witness :
  ∃ out',
    fft [1; 2; 3; 4] [0; 0; 0; 0] 4 = Ok out'
    ∧ (∀ i, (i < N.to_nat 4 / 2)%nat →
         sample out' i + sample out' (i + N.to_nat 4 / 2)
         = 2 * sample [1; 2; 3; 4] (2 * i)
         ∧ sample out' i - sample out' (i + N.to_nat 4 / 2)
           = 2 * (cos (2 * PI * (INR i / INR (N.to_nat 4)))
                  * sample [1; 2; 3; 4] (2 * i + 1)))
    ∧ sample out' 0 = sample [1; 2; 3; 4] 0 + sample [1; 2; 3; 4] 1
    ∧ sample out' (N.to_nat 4 / 2)
      = sample [1; 2; 3; 4] 0 - sample [1; 2; 3; 4] 1.
Proof.
  apply (fft_bins_pair_up [1; 2; 3; 4] [0; 0; 0; 0] 4%N);
    [lia | reflexivity | simpl; lia | simpl; lia].
Defined.
